(** * Workflow graph engine ([app/core/graph.py]): model and properties

    A shallow embedding of the graph topology layer ([Graph]) and of the
    execution driver ([WorkflowExecutor.execute]).

    Conventions of the embedding.
    - A state dictionary ([Dict[str, Any]]) is a finite map from strings to
      values.  Mutable containers stored in a dictionary (lists, nested
      dictionaries) live in a heap and are held by reference, so that two
      dictionaries can share a nested object.
    - A node function receives the live state dictionary of the run and may
      mutate it, and the objects reachable from it, in place: it is a function
      from heap and dictionary to a new heap, a new dictionary and an outcome
      (a returned value or a raised exception).
    - Methods that mutate [self] return the new object; a method that can
      raise returns the raised exception next to it.
    - [datetime.utcnow()] reads a logical clock that advances at each call.
      Random identifiers ([uuid4]) and the floating point [duration_ms] are
      left out, and so is the [logging] output. *)

From Stdlib Require Import ZArith List Lia.
From stdpp Require Import base option list gmap strings pretty.

Local Open Scope Z_scope.

(** ** Values, heap and exceptions *)

Definition loc := positive.

Inductive value :=
  | VNone
  | VBool (b : bool)
  | VInt (n : Z)
  | VStr (s : string)
  | VRef (l : loc).

Abbreviation dict := (gmap string value).

Inductive object :=
  | OList (xs : list value)
  | ODict (d : dict).

Abbreviation heap := (gmap loc object).

(** What a node function hands back with [return]: a dictionary (given by
    its items at the time of the return) or something else. *)
Inductive result :=
  | RDict (d : dict)
  | RNone
  | RBool (b : bool)
  | RInt (n : Z)
  | RStr (s : string)
  | RList (xs : list value).

(** [bool(result)] *)
Definition truthy (r : result) : bool :=
  match r with
  | RDict d => negb (bool_decide (d = ∅))
  | RNone => false
  | RBool b => b
  | RInt n => negb (n =? 0)
  | RStr s => negb (bool_decide (s = ""))
  | RList xs => negb (bool_decide (xs = []))
  end.

(** [isinstance(result, dict)] *)
Definition isinstance_dict (r : result) : bool :=
  match r with RDict _ => true | _ => false end.

(** An exception: its class and what [str(e)] gives.  An [exn] stands for
    an instance of [Exception], which is what the two [except Exception]
    clauses of [execute] catch; an exception that is a [BaseException] only
    ([SystemExit], [KeyboardInterrupt]) passes both clauses and is outside
    the model. *)
Record exn := Exn { exn_class : string; exn_str : string }.

Definition ValueError (msg : string) : exn := Exn "ValueError" msg.
Definition RuntimeError (msg : string) : exn := Exn "RuntimeError" msg.

Inductive outcome :=
  | Returned (r : result)
  | Raised (e : exn).

Definition node_func := heap → dict → heap * dict * outcome.
(** An edge condition, on the states where it returns.  A condition that
    raises is outside the model: [get_next_nodes] is called outside the
    inner [try] of [execute], so the exception would fail the run. *)
Definition edge_cond := heap → dict → bool.

(** ** Data classes *)

Inductive ExecutionStatus := RUNNING | COMPLETED | FAILED | PAUSED.

Record ExecutionLog := mkExecutionLog {
  node_name : string;
  timestamp : nat;
  log_status : string;
  state_snapshot : dict;
  log_error : option string
}.

Record NodeDefinition := mkNodeDefinition {
  nd_name : string;
  func : node_func;
  nd_description : string
}.

Record EdgeDefinition := mkEdgeDefinition {
  from_node : string;
  to_node : string;
  condition : option edge_cond;
  ed_description : string
}.

(** ** Graph *)

Record Graph := mkGraph {
  g_name : string;
  nodes : gmap string NodeDefinition;
  edges : list EdgeDefinition;
  entry_point : option string
}.

(** [Graph(name)] *)
Definition new_graph (name : string) : Graph :=
  mkGraph name ∅ [] None.

Definition add_node (g : Graph) (name : string) (f : node_func)
    (description : string) : Graph * option exn :=
  if bool_decide (is_Some (nodes g !! name)) then
    (g, Some (ValueError ("Node '" +:+ name +:+ "' already exists")))
  else
    let nodes' := <[name := mkNodeDefinition name f description]> (nodes g) in
    let entry' := match entry_point g with
                  | None => Some name
                  | Some e => Some e
                  end in
    (mkGraph (g_name g) nodes' (edges g) entry', None).

Definition add_edge (g : Graph) (from_node to_node : string)
    (condition : option edge_cond) (description : string)
    : Graph * option exn :=
  if negb (bool_decide (is_Some (nodes g !! from_node))) then
    (g, Some (ValueError ("Source node '" +:+ from_node +:+ "' does not exist")))
  else if negb (bool_decide (is_Some (nodes g !! to_node))) then
    (g, Some (ValueError
                ("Destination node '" +:+ to_node +:+ "' does not exist")))
  else
    (mkGraph (g_name g) (nodes g)
       (edges g ++ [mkEdgeDefinition from_node to_node condition description])
       (entry_point g),
     None).

Definition set_entry_point (g : Graph) (node_name : string)
    : Graph * option exn :=
  if negb (bool_decide (is_Some (nodes g !! node_name))) then
    (g, Some (ValueError ("Node '" +:+ node_name +:+ "' does not exist")))
  else
    (mkGraph (g_name g) (nodes g) (edges g) (Some node_name), None).

(** The [for] loop of [get_next_nodes], one edge at a time, appending to
    [next_nodes]. *)
Fixpoint get_next_nodes_loop (es : list EdgeDefinition) (current_node : string)
    (h : heap) (state : dict) (next_nodes : list string) : list string :=
  match es with
  | [] => next_nodes
  | edge :: es' =>
      let next_nodes' :=
        if bool_decide (from_node edge = current_node) then
          match condition edge with
          | None => next_nodes ++ [to_node edge]
          | Some c =>
              if c h state then next_nodes ++ [to_node edge] else next_nodes
          end
        else next_nodes in
      get_next_nodes_loop es' current_node h state next_nodes'
  end.

Definition get_next_nodes (g : Graph) (current_node : string) (h : heap)
    (state : dict) : list string :=
  get_next_nodes_loop (edges g) current_node h state [].

Definition validate (g : Graph) : bool * string :=
  if bool_decide (nodes g = ∅) then (false, "Graph has no nodes")
  else
    match entry_point g with
    | None => (false, "No entry point set")
    | Some e =>
        if negb (bool_decide (is_Some (nodes g !! e))) then
          (false, "Entry point '" +:+ e +:+ "' does not exist")
        else (true, "")
    end.

(** ** Runs *)

Record world := mkWorld { w_heap : heap; clock : nat }.

(** [datetime.utcnow()] *)
Definition utcnow (w : world) : nat * world :=
  (clock w, mkWorld (w_heap w) (S (clock w))).

Record WorkflowRun := mkWorkflowRun {
  state : dict;
  status : ExecutionStatus;
  logs : list ExecutionLog;
  created_at : nat;
  completed_at : option nat;
  error : option string;
  visited_nodes : list string
}.

(** [WorkflowRun(graph, initial_state)]; [initial_state.copy()] has the
    items of [initial_state]. *)
Definition new_run (initial_state : dict) (w : world) : WorkflowRun * world :=
  let '(now, w') := utcnow w in
  (mkWorkflowRun initial_state RUNNING [] now None None [], w').

Definition get_state (r : WorkflowRun) : dict := state r.
Definition get_logs (r : WorkflowRun) : list ExecutionLog := logs r.

(** [self.run.state.update(result)], for a [result] that is a dictionary:
    the items of [result] win, the other keys keep their value. *)
Definition dict_update (st : dict) (r : result) : dict :=
  match r with
  | RDict d => d ∪ st
  | _ => st
  end.

(** Lines 257-259: the merge of a node's result into the run state. *)
Definition merge_result (st : dict) (r : result) : dict :=
  if truthy r && isinstance_dict r then dict_update st r else st.

(** ** Executor *)

Record WorkflowExecutor := mkWorkflowExecutor {
  graph : Graph;
  run : option WorkflowRun
}.

Definition new_executor (g : Graph) : WorkflowExecutor :=
  mkWorkflowExecutor g None.

Definition get_current_run (ex : WorkflowExecutor) : option WorkflowRun :=
  run ex.

Definition MAX_ITERATIONS : Z := 1000.

(** [max_iterations or self.MAX_ITERATIONS]: [None] and [0] are falsy. *)
Definition effective_max_iterations (max_iterations : option Z) : Z :=
  match max_iterations with
  | None => MAX_ITERATIONS
  | Some n => if n =? 0 then MAX_ITERATIONS else n
  end.

(** Truth value of [current_node] in the [while] test: [None] and the empty
    string are falsy. *)
Definition truthy_node (current_node : option string) : bool :=
  match current_node with
  | None => false
  | Some s => negb (bool_decide (s = ""))
  end.

(** [next_nodes[0] if next_nodes else None] *)
Definition first_or_none (next_nodes : list string) : option string :=
  match next_nodes with
  | [] => None
  | n :: _ => Some n
  end.

(** Outcome of one pass through the body of the [while] loop. *)
Inductive step_result :=
  | Continue (w : world) (r : WorkflowRun) (next : option string)
  | Abort (w : world) (r : WorkflowRun) (e : exn).

(** How the [while] loop is left: its test failed, or an exception escaped
    from its body. *)
Inductive loop_result :=
  | LoopExit (w : world) (r : WorkflowRun) (current_node : option string)
             (iteration : Z)
  | LoopRaised (w : world) (r : WorkflowRun) (e : exn).

Inductive completion :=
  | Return (r : WorkflowRun)
  | Raise (e : exn).

Section Executor.

  (** Python's built-in [repr] on strings, which [str] of a [KeyError]
      applies to the missing key. *)
Variable repr : string → string.

Definition KeyError (key : string) : exn := Exn "KeyError" (repr key).

  (** Lines 246-296: the body of the loop for [current_node]. *)
Definition execute_node (g : Graph) (current_node : string) (w : world)
      (r : WorkflowRun) : step_result :=
    match nodes g !! current_node with
    | None => Abort w r (KeyError current_node)
    | Some node_def =>
        let '(start_time, w1) := utcnow w in
        let '(h', st', out) := func node_def (w_heap w1) (state r) in
        let w2 := mkWorld h' (clock w1) in
        match out with
        | Returned res =>
            let st'' := merge_result st' res in
            let '(_, w3) := utcnow w2 in
            let '(now, w4) := utcnow w3 in
            let log_entry :=
              mkExecutionLog current_node now "success" st'' None in
            let r' :=
              mkWorkflowRun st'' (status r) (logs r ++ [log_entry])
                (created_at r) (completed_at r) (error r)
                (visited_nodes r ++ [current_node]) in
            let next_nodes := get_next_nodes g current_node (w_heap w4) st'' in
            Continue w4 r' (first_or_none next_nodes)
        | Raised e =>
            let '(_, w3) := utcnow w2 in
            let '(now, w4) := utcnow w3 in
            let log_entry :=
              mkExecutionLog current_node now "error" st'
                (Some (exn_str e)) in
            let r' :=
              mkWorkflowRun st' (status r) (logs r ++ [log_entry])
                (created_at r) (completed_at r) (error r)
                (visited_nodes r) in
            Abort w4 r' e
        end
    end.

  (** Lines 245-296: the [while] loop.  [fuel] bounds the number of passes;
      [while_loop_unfold] shows that [max_iterations - iteration] passes are
      always enough. *)
Fixpoint while_loop (fuel : nat) (g : Graph) (max_iterations : Z)
      (current_node : option string) (iteration : Z) (w : world)
      (r : WorkflowRun) : loop_result :=
    match fuel with
    | O => LoopExit w r current_node iteration
    | S fuel' =>
        if truthy_node current_node && (iteration <? max_iterations) then
          match current_node with
          | None => LoopExit w r current_node iteration
          | Some c =>
              match execute_node g c w r with
              | Continue w' r' next =>
                  while_loop fuel' g max_iterations next (iteration + 1) w' r'
              | Abort w' r' e => LoopRaised w' r' e
              end
          end
        else LoopExit w r current_node iteration
    end.

  (** Lines 304-309: the outer [except] clause. *)
Definition fail_run (ex : WorkflowExecutor) (w : world) (r : WorkflowRun)
      (e : exn) : WorkflowExecutor * world * completion :=
    let '(now, w') := utcnow w in
    let r' :=
      mkWorkflowRun (state r) FAILED (logs r) (created_at r) (Some now)
        (Some (exn_str e)) (visited_nodes r) in
    (mkWorkflowExecutor (graph ex) (Some r'), w', Raise e).

  (** Lines 298-311: what follows the loop. *)
Definition after_loop (ex : WorkflowExecutor) (max_iterations : Z)
      (res : loop_result) : WorkflowExecutor * world * completion :=
    match res with
    | LoopExit w r _ iteration =>
        if iteration >=? max_iterations then
          fail_run ex w r
            (RuntimeError ("Workflow exceeded maximum iterations ("
                           +:+ pretty max_iterations +:+ ")"))
        else
          let '(now, w') := utcnow w in
          let r' :=
            mkWorkflowRun (state r) COMPLETED (logs r) (created_at r)
              (Some now) (error r) (visited_nodes r) in
          (mkWorkflowExecutor (graph ex) (Some r'), w', Return r')
    | LoopRaised w r e => fail_run ex w r e
    end.

  (** The loop of one call of [execute], from the entry point. *)
Definition run_loop (g : Graph) (max_iterations : Z) (w : world)
      (r : WorkflowRun) : loop_result :=
    while_loop (Z.to_nat max_iterations) g max_iterations (entry_point g) 0 w r.

Definition execute (ex : WorkflowExecutor) (w : world)
      (initial_state : dict) (max_iterations : option Z)
      : WorkflowExecutor * world * completion :=
    let '(is_valid, error_msg) := validate (graph ex) in
    if negb is_valid then
      (ex, w, Raise (ValueError ("Invalid graph: " +:+ error_msg)))
    else
      let '(r0, w0) := new_run initial_state w in
      let max_iterations := effective_max_iterations max_iterations in
      after_loop ex max_iterations (run_loop (graph ex) max_iterations w0 r0).

(** The loop variables at the head of the loop: [current_node],
    [iteration], the world and [self.run]. *)
Record config := mkConfig {
  cf_current : option string;
  cf_iteration : Z;
  cf_world : world;
  cf_run : WorkflowRun
}.

(** [start_config g w r] is where the loop of [execute] starts. *)
Definition start_config (g : Graph) (w : world) (r : WorkflowRun) : config :=
  mkConfig (entry_point g) 0 w r.

(** [passes g max_iterations cf cf']: from [cf] the loop gets to [cf'] by
    zero or more passes through its body, none of which raises. *)
Inductive passes (g : Graph) (max_iterations : Z) : config → config → Prop :=
  | passes_refl cf : passes g max_iterations cf cf
  | passes_step c iteration w r w1 r1 next cf' :
      c ≠ "" →
      iteration < max_iterations →
      execute_node g c w r = Continue w1 r1 next →
      passes g max_iterations (mkConfig next (iteration + 1) w1 r1) cf' →
      passes g max_iterations (mkConfig (Some c) iteration w r) cf'.

End Executor.


(** ** Auxiliary definitions used in the statements *)

(** The words of the specification: an edge is kept when it leaves
    [current_node] and its condition is absent or true on the state. *)
Definition edge_enabled (current_node : string) (h : heap) (st : dict)
    (edge : EdgeDefinition) : bool :=
  bool_decide (from_node edge = current_node) &&
  match condition edge with
  | None => true
  | Some c => c h st
  end.

Definition next_nodes_spec (g : Graph) (current_node : string) (h : heap)
    (st : dict) : list string :=
  map to_node (List.filter (edge_enabled current_node h st) (edges g)).

(** The run carried by the result of a pass, and by the result of the loop. *)
Definition step_run (s : step_result) : WorkflowRun :=
  match s with Continue _ r _ | Abort _ r _ => r end.

Definition loop_run (l : loop_result) : WorkflowRun :=
  match l with LoopExit _ r _ _ | LoopRaised _ r _ => r end.

(** Graphs built with the public operations only.  An operation that
    raises leaves the graph as it was, so a caller that catches the error
    goes on with the same graph. *)
Inductive graph_op :=
  | AddNode (name : string) (f : node_func) (description : string)
  | AddEdge (from_node to_node : string) (condition : option edge_cond)
            (description : string)
  | SetEntryPoint (node_name : string).

Definition apply_op (g : Graph) (o : graph_op) : Graph :=
  match o with
  | AddNode name f description => (add_node g name f description).1
  | AddEdge a b c description => (add_edge g a b c description).1
  | SetEntryPoint name => (set_entry_point g name).1
  end.

Definition build (name : string) (ops : list graph_op) : Graph :=
  fold_left apply_op ops (new_graph name).

(** The invariant that the public operations keep: the entry point is
    missing only on a graph without nodes, and it names a node. *)
Definition entry_point_ok (g : Graph) : Prop :=
  (entry_point g = None → nodes g = ∅) ∧
  (∀ e, entry_point g = Some e → is_Some (nodes g !! e)).

(** What a reader of a dictionary sees one level down: each value, and for
    a reference the object it points to in the heap at the time of reading. *)
Definition deref (h : heap) (v : value) : option object :=
  match v with
  | VRef l => h !! l
  | _ => None
  end.

Definition view (h : heap) (d : dict) : gmap string (value * option object) :=
  (λ v, (v, deref h v)) <$> d.

(** ** Sample nodes and graphs *)

(** A stand-in for [repr] on names without quotes or escapes. *)
Definition quote (s : string) : string := "'" +:+ s +:+ "'".

(** [def nop(state): return None] *)
Definition nop : node_func := λ h st, (h, st, Returned RNone).

(** [def set_a(state): return {"a": 1}] *)
Definition set_a : node_func :=
  λ h st, (h, st, Returned (RDict {["a" := VInt 1]})).

(** [def boom(state): raise ValueError("boom")] *)
Definition boom : node_func := λ h st, (h, st, Raised (ValueError "boom")).

(** [def make_items(state): state["items"] = []; return state] *)
Definition make_items : node_func :=
  λ h st,
    let l := fresh (dom h) in
    let st' := <["items" := VRef l]> st in
    (<[l := OList []]> h, st', Returned (RDict st')).

(** [def push_item(state): state["items"].append(1)] *)
Definition push_item : node_func :=
  λ h st,
    match st !! "items" with
    | Some (VRef l) =>
        match h !! l with
        | Some (OList xs) => (<[l := OList (xs ++ [VInt 1])]> h, st, Returned RNone)
        | _ => (h, st, Raised (Exn "AttributeError" "no attribute 'append'"))
        end
    | Some _ => (h, st, Raised (Exn "AttributeError" "no attribute 'append'"))
    | None => (h, st, Raised (Exn "KeyError" (quote "items")))
    end.

Definition empty_world : world := mkWorld ∅ 0.

(** One node, no edge. *)
Definition single_graph : Graph := build "single" [AddNode "a" nop ""].

(** One node with an edge to itself. *)
Definition looping_graph : Graph :=
  build "looping" [AddNode "a" nop ""; AddEdge "a" "a" None ""].

(** One node whose name is the empty string. *)
Definition unnamed_graph : Graph := build "unnamed" [AddNode "" nop ""].

(** A node that fails, between a node that runs before it and a node that
    would follow it. *)
Definition failing_graph : Graph :=
  build "failing"
    [AddNode "a" set_a ""; AddNode "b" boom ""; AddNode "c" nop "";
     AddEdge "a" "b" None ""; AddEdge "b" "c" None ""].

(** A node that stores a fresh list, then a node that appends to it. *)
Definition items_graph : Graph :=
  build "items"
    [AddNode "make" make_items ""; AddNode "push" push_item "";
     AddEdge "make" "push" None ""].

(** [lambda s: s.get("a") == n] *)
Definition a_is (n : Z) : edge_cond :=
  λ _ st,
    match st !! "a" with
    | Some (VInt m) => m =? n
    | _ => false
    end.

(** Two edges out of ["a"] are enabled at once, one is not. *)
Definition branching_graph : Graph :=
  build "branching"
    [AddNode "a" set_a ""; AddNode "b" nop ""; AddNode "c" nop "";
     AddEdge "a" "c" (Some (a_is 0)) "";
     AddEdge "a" "b" None "";
     AddEdge "b" "c" None "";
     AddEdge "a" "c" (Some (a_is 1)) ""].

(** Every edge joins two nodes of the graph. *)
Definition edges_ok (g : Graph) : Prop :=
  ∀ edge, edge ∈ edges g →
    is_Some (nodes g !! from_node edge) ∧ is_Some (nodes g !! to_node edge).

(** [log.status == "success"] *)
Definition succeeded (entry : ExecutionLog) : bool :=
  bool_decide (log_status entry = "success").

(** ** Storage ([app/core/storage.py]) *)

(** A [Graph] object with its [graph_id], and a [WorkflowRun] object with
    its [run_id] and the graph object it refers to.  The identifiers are
    [uuid4] strings drawn when the object is made; the operations that make
    an object take the identifier as an argument. *)
Record GraphObject := mkGraphObject {
  graph_id : string;
  go_graph : Graph
}.

Record RunObject := mkRunObject {
  run_id : string;
  ro_graph : GraphObject;
  ro_run : WorkflowRun
}.

Record GraphStore := mkGraphStore { graphs : gmap string GraphObject }.

Definition new_graph_store : GraphStore := mkGraphStore ∅.

Definition GraphStore_save (s : GraphStore) (g : GraphObject) : GraphStore :=
  mkGraphStore (<[graph_id g := g]> (graphs s)).

Definition GraphStore_get (s : GraphStore) (id : string) : option GraphObject :=
  graphs s !! id.

Definition GraphStore_delete (s : GraphStore) (id : string)
    : GraphStore * bool :=
  if bool_decide (is_Some (graphs s !! id)) then
    (mkGraphStore (delete id (graphs s)), true)
  else (s, false).

Definition GraphStore_list_all (s : GraphStore) : gmap string GraphObject :=
  graphs s.

Record RunStore := mkRunStore { runs : gmap string RunObject }.

Definition new_run_store : RunStore := mkRunStore ∅.

Definition RunStore_save (s : RunStore) (r : RunObject) : RunStore :=
  mkRunStore (<[run_id r := r]> (runs s)).

Definition RunStore_get (s : RunStore) (id : string) : option RunObject :=
  runs s !! id.

Definition RunStore_delete (s : RunStore) (id : string) : RunStore * bool :=
  if bool_decide (is_Some (runs s !! id)) then
    (mkRunStore (delete id (runs s)), true)
  else (s, false).

Definition RunStore_list_all (s : RunStore) : gmap string RunObject := runs s.

Definition RunStore_list_by_graph (s : RunStore) (id : string)
    : gmap string RunObject :=
  filter (λ kv, graph_id (ro_graph kv.2) = id) (runs s).

(** ** Tool registry ([app/core/tools.py]) *)

(** A tool is any callable; [T] is the type of the tools of a registry. *)
Record ToolRegistry (T : Type) := mkToolRegistry {
  tools : gmap string T;
  descriptions : gmap string string
}.

Arguments mkToolRegistry {T} _ _.
Arguments tools {T} _.
Arguments descriptions {T} _.

Definition new_tool_registry {T} : ToolRegistry T := mkToolRegistry ∅ ∅.

(** [register]: an existing name is overwritten (a warning is logged). *)
Definition register {T} (reg : ToolRegistry T) (name : string) (f : T)
    (description : string) : ToolRegistry T :=
  mkToolRegistry (<[name := f]> (tools reg))
    (<[name := description]> (descriptions reg)).

Definition get_tool {T} (reg : ToolRegistry T) (name : string) : option T :=
  tools reg !! name.

(** [call(name, *args)], for tools that take [args : A] and give an [R]. *)
Definition call {A R} (reg : ToolRegistry (A → R)) (name : string) (args : A)
    : exn + R :=
  match tools reg !! name with
  | None => inl (ValueError ("Tool '" +:+ name +:+ "' not found in registry"))
  | Some f => inr (f args)
  end.

Definition list_tools {T} (reg : ToolRegistry T) : gmap string string :=
  descriptions reg.

(** [exists(name)] *)
Definition tool_exists {T} (reg : ToolRegistry T) (name : string) : bool :=
  bool_decide (is_Some (tools reg !! name)).

(** A registry filled by successive calls of [register]. *)
Definition register_all {T} (reg : ToolRegistry T)
    (l : list (string * T * string)) : ToolRegistry T :=
  fold_left (λ reg x, register reg x.1.1 x.1.2 x.2) l reg.

(** ** The data quality pipeline ([app/workflows/data_quality.py]) *)

(** [state.get(key, default)] *)
Definition state_get (st : dict) (key : string) (d : value) : value :=
  default d (st !! key).

(** The integer a value stands for in an order comparison with an [int]
    ([bool] is a subclass of [int]); [None] when the comparison raises
    [TypeError]. *)
Definition int_of (v : value) : option Z :=
  match v with
  | VInt n => Some n
  | VBool b => Some (if b then 1 else 0)
  | VNone | VStr _ | VRef _ => None
  end.

(** [should_loop(state)]; [None] stands for the [TypeError] of a comparison
    between a non-number and an [int].  [and] evaluates its right operand
    only when the left one is true. *)
Definition should_loop (st : dict) : option bool :=
  let iteration := state_get st "iteration" (VInt 0) in
  let anomaly_count := state_get st "anomaly_count" (VInt 0) in
  match int_of anomaly_count with
  | None => None
  | Some a =>
      if 1 <? a then
        match int_of iteration with
        | None => None
        | Some i => Some (i <? 5)
        end
      else Some false
  end.

(** [x is None], on values. *)
Definition is_none (v : value) : bool :=
  match v with VNone => true | _ => false end.

(** [data = state.get("data", {})] as [profile_data] uses it: [len(data)]
    and [data.values()] are both defined on a dictionary only (a number or
    [None] has no [len], a string or a list has no [values]).  The result
    is the items of the dictionary, [None] when Python raises. *)
Definition data_items (h : heap) (st : dict) : option dict :=
  match st !! "data" with
  | None => Some ∅
  | Some (VRef l) =>
      match h !! l with
      | Some (ODict d) => Some d
      | _ => None
      end
  | Some _ => None
  end.

(** [state.get("iteration", 0) + 1], [None] when the addition raises
    [TypeError]. *)
Definition next_iteration (st : dict) : option Z :=
  match state_get st "iteration" (VInt 0) with
  | VInt n => Some (n + 1)
  | VBool b => Some ((if b then 1 else 0) + 1)
  | VNone | VStr _ | VRef _ => None
  end.

(** [profile_data(state)]: the heap with the new [profile] dictionary in
    it, and the dictionary returned; [None] when Python raises
    ([TypeError] or [AttributeError]).  The state is not written to. *)
Definition profile_data (h : heap) (st : dict) : option (heap * result) :=
  match data_items h st with
  | None => None
  | Some data =>
      let profile : dict :=
        {["record_count" := VInt (Z.of_nat (size data));
          "null_count" :=
            VInt (Z.of_nat (size (filter (λ kv, is_none kv.2 = true) data)));
          "field_count" := VInt (Z.of_nat (size data));
          "profile_complete" := VBool true]} in
      let l := fresh (dom h) in
      match next_iteration st with
      | None => None
      | Some i =>
          Some (<[l := ODict profile]> h,
                RDict {["profile" := VRef l; "iteration" := VInt i]})
      end
  end.

(** [register_data_quality_tools], on the registry it gets from
    [get_tool_registry]. *)
Definition register_data_quality_tools {T} (reg : ToolRegistry T)
    (profile_data identify_anomalies generate_rules apply_rules : T)
    : ToolRegistry T :=
  register_all reg
    [("profile_data", profile_data,
      "Profile the dataset to gather statistics");
     ("identify_anomalies", identify_anomalies,
      "Identify data quality anomalies");
     ("generate_rules", generate_rules,
      "Generate data quality rules based on anomalies");
     ("apply_rules", apply_rules,
      "Apply generated rules to fix quality issues")].

(** The graph that [create_data_quality_pipeline] builds.  The five node
    functions are arguments (two of them draw random numbers).  So are the
    two conditions of the edges out of ["apply_rules"], which in the source
    are [should_loop] and [lambda state: not should_loop(state)]: a
    condition of the graph model cannot raise, [should_loop] can. *)
Definition create_data_quality_pipeline
    (profile_data identify_anomalies generate_rules apply_rules
       summarize_results : node_func)
    (loop_cond exit_cond : edge_cond) : Graph :=
  build "data_quality_pipeline"
    [AddNode "profile" profile_data
       "Profile the dataset to understand its characteristics";
     AddNode "identify_anomalies" identify_anomalies
       "Identify data quality issues and anomalies";
     AddNode "generate_rules" generate_rules
       "Generate quality rules based on detected anomalies";
     AddNode "apply_rules" apply_rules "Apply quality rules to fix issues";
     AddNode "summarize" summarize_results
       "Summarize the results of the quality pipeline";
     AddEdge "profile" "identify_anomalies" None
       "Always proceed to anomaly detection";
     AddEdge "identify_anomalies" "generate_rules" None
       "Always proceed to rule generation";
     AddEdge "generate_rules" "apply_rules" None
       "Always proceed to rule application";
     AddEdge "apply_rules" "profile" (Some loop_cond)
       "Loop back if anomalies remain and not exceeded max iterations";
     AddEdge "apply_rules" "summarize" (Some exit_cond)
       "Proceed to summary when quality goals are met";
     SetEntryPoint "profile"].

(** ** The HTTP handlers that build and run graphs ([app/main.py]) *)

Record HTTPException := mkHTTPException {
  status_code : Z;
  detail : string
}.

(** The request models of [app/models/schemas.py], with descriptions that
    are strings. *)
Record NodeInput := mkNodeInput {
  ni_name : string;
  ni_description : string
}.

Record EdgeInput := mkEdgeInput {
  ei_from_node : string;
  ei_to_node : string;
  ei_description : string
}.

Record GraphCreateRequest := mkGraphCreateRequest {
  req_name : string;
  req_entry_point : string;
  req_nodes : list NodeInput;
  req_edges : list EdgeInput
}.

(** The function [create_graph] gives to every node:
    [return {"last_node": node_name}]. *)
Definition api_node_func (node_name : string) : node_func :=
  λ h st, (h, st, Returned (RDict {["last_node" := VStr node_name]})).

(** The two [for] loops of [create_graph]; the first exception ends them. *)
Fixpoint add_request_nodes (g : Graph) (ns : list NodeInput)
    : Graph * option exn :=
  match ns with
  | [] => (g, None)
  | node :: ns' =>
      match add_node g (ni_name node) (api_node_func (ni_name node))
              (ni_description node) with
      | (g', None) => add_request_nodes g' ns'
      | (g', Some e) => (g', Some e)
      end
  end.

Fixpoint add_request_edges (g : Graph) (es : list EdgeInput)
    : Graph * option exn :=
  match es with
  | [] => (g, None)
  | edge :: es' =>
      match add_edge g (ei_from_node edge) (ei_to_node edge) None
              (ei_description edge) with
      | (g', None) => add_request_edges g' es'
      | (g', Some e) => (g', Some e)
      end
  end.

(** [create_graph]: the graph object made, stored under [new_id], or the
    [HTTPException] with status 400 that any exception becomes.  The
    response is read off the graph object. *)
Definition create_graph (store : GraphStore) (new_id : string)
    (request : GraphCreateRequest)
    : GraphStore * (HTTPException + GraphObject) :=
  match add_request_nodes (new_graph (req_name request)) (req_nodes request)
  with
  | (_, Some e) => (store, inl (mkHTTPException 400 (exn_str e)))
  | (g1, None) =>
      match add_request_edges g1 (req_edges request) with
      | (_, Some e) => (store, inl (mkHTTPException 400 (exn_str e)))
      | (g2, None) =>
          match set_entry_point g2 (req_entry_point request) with
          | (_, Some e) => (store, inl (mkHTTPException 400 (exn_str e)))
          | (g3, None) =>
              let '(is_valid, error_msg) := validate g3 in
              if negb is_valid then
                (store,
                 inl (mkHTTPException 400
                        (exn_str (ValueError
                                    ("Invalid graph: " +:+ error_msg)))))
              else
                (GraphStore_save store (mkGraphObject new_id g3),
                 inr (mkGraphObject new_id g3))
          end
      end
  end.

Section Api.

(** Python's built-in [repr] on strings, as in [execute]. *)
Variable repr : string → string.

(** [run_graph]: the run object made, stored under [new_run_id], or an
    [HTTPException]: 404 when the graph is not in the store, 500 when
    [execute] raises.  The response is read off the run object. *)
Definition run_graph (graph_store : GraphStore) (run_store : RunStore)
    (w : world) (new_run_id : string) (id : string) (initial_state : dict)
    : RunStore * world * (HTTPException + RunObject) :=
  match GraphStore_get graph_store id with
  | None => (run_store, w, inl (mkHTTPException 404 "Graph not found"))
  | Some g =>
      let executor := new_executor (go_graph g) in
      match execute repr executor w initial_state None with
      | (_, w', Raise e) =>
          (run_store, w', inl (mkHTTPException 500 (exn_str e)))
      | (_, w', Return r) =>
          (RunStore_save run_store (mkRunObject new_run_id g r), w',
           inr (mkRunObject new_run_id g r))
      end
  end.

End Api.

(** A node function that returns on every state. *)
Definition never_raises (f : node_func) : Prop :=
  ∀ h st, ∃ h' st' res, f h st = (h', st', Returned res).

(** * Properties *)

(** ** The graph layer *)

Lemma validate_true_iff (g : Graph) :
  (validate g).1 = true ↔
  nodes g ≠ ∅ ∧ ∃ e, entry_point g = Some e ∧ is_Some (nodes g !! e).
Proof.
  unfold validate. case_bool_decide as Hn; simpl.
  - split; [discriminate | intros [? _]; contradiction].
  - destruct (entry_point g) as [e|]; simpl.
    + case_bool_decide as He; simpl.
      * split; [intros _; eauto | done].
      * split; [discriminate |].
        intros (_ & e' & [= <-] & Hs). contradiction.
    + split; [discriminate | intros (_ & e & He & _); discriminate].
Qed.

Lemma validate_false_iff (g : Graph) :
  (validate g).1 = false ↔
  nodes g = ∅ ∨ entry_point g = None ∨
  ∃ e, entry_point g = Some e ∧ nodes g !! e = None.
Proof.
  unfold validate. case_bool_decide as Hn; simpl.
  - split; [intros _; by left | done].
  - destruct (entry_point g) as [e|]; simpl.
    + case_bool_decide as He; simpl.
      * split; [discriminate |].
        intros [? | [? | (e' & [= <-] & Hnone)]]; try done.
        rewrite Hnone in He. by destruct He.
      * split; [| done]. intros _. right; right. exists e. split; [done |].
        by apply eq_None_not_Some.
    + split; [intros _; right; by left | done].
Qed.

(** The accumulator of the [for] loop only grows at its end. *)
Lemma get_next_nodes_loop_acc es current_node h st acc :
  get_next_nodes_loop es current_node h st acc =
  acc ++ get_next_nodes_loop es current_node h st [].
Proof.
  revert acc. induction es as [|edge es IH]; intros acc; simpl.
  - by rewrite app_nil_r.
  - case_bool_decide; [| apply IH].
    destruct (condition edge) as [c|].
    + destruct (c h st); [| apply IH].
      rewrite (IH (acc ++ _)), (IH [to_node edge]). by rewrite <- app_assoc.
    + rewrite (IH (acc ++ _)), (IH [to_node edge]). by rewrite <- app_assoc.
Qed.

Lemma get_next_nodes_loop_spec es current_node h st :
  get_next_nodes_loop es current_node h st [] =
  map to_node (List.filter (edge_enabled current_node h st) es).
Proof.
  induction es as [|edge es IH]; [done |].
  simpl. unfold edge_enabled at 1.
  case_bool_decide; simpl; [| apply IH].
  destruct (condition edge) as [c|].
  - destruct (c h st); simpl; [| apply IH].
    rewrite get_next_nodes_loop_acc. simpl. by rewrite IH.
  - rewrite get_next_nodes_loop_acc. simpl. by rewrite IH.
Qed.

Lemma filter_sublist {A} (p : A → bool) (l : list A) :
  sublist (List.filter p l) l.
Proof.
  induction l as [|x l IH]; simpl; [constructor |].
  destruct (p x); by constructor.
Qed.

Lemma map_sublist {A B} (f : A → B) (l1 l2 : list A) :
  sublist l1 l2 → sublist (map f l1) (map f l2).
Proof. induction 1; simpl; by constructor. Qed.

(** ** One pass through the loop body *)

Section ExecutorFacts.

Variable repr : string → string.

Lemma execute_node_returned g c w r node_def h' st' res :
    nodes g !! c = Some node_def →
    func node_def (w_heap w) (state r) = (h', st', Returned res) →
    execute_node repr g c w r =
    Continue (mkWorld h' (3 + clock w)%nat)
      (mkWorkflowRun (merge_result st' res) (status r)
         (logs r ++ [mkExecutionLog c (2 + clock w)%nat "success"
                       (merge_result st' res) None])
         (created_at r) (completed_at r) (error r) (visited_nodes r ++ [c]))
      (first_or_none (get_next_nodes g c h' (merge_result st' res))).
  Proof.
    intros Hnode Hf. unfold execute_node. rewrite Hnode. simpl.
    by rewrite Hf.
  Qed.

Lemma execute_node_raised g c w r node_def h' st' e :
    nodes g !! c = Some node_def →
    func node_def (w_heap w) (state r) = (h', st', Raised e) →
    execute_node repr g c w r =
    Abort (mkWorld h' (3 + clock w)%nat)
      (mkWorkflowRun st' (status r)
         (logs r ++ [mkExecutionLog c (2 + clock w)%nat "error" st'
                       (Some (exn_str e))])
         (created_at r) (completed_at r) (error r) (visited_nodes r))
      e.
  Proof.
    intros Hnode Hf. unfold execute_node. rewrite Hnode. simpl.
    by rewrite Hf.
  Qed.

Lemma execute_node_missing g c w r :
    nodes g !! c = None →
    execute_node repr g c w r = Abort w r (KeyError repr c).
  Proof. intros Hnode. unfold execute_node. by rewrite Hnode. Qed.

  (** A pass through the body leaves the log as it was or adds one entry at
      its end; the entry holds the items of the run state at that time. *)
Lemma execute_node_logs g c w r :
    logs (step_run (execute_node repr g c w r)) = logs r ∨
    ∃ entry,
      logs (step_run (execute_node repr g c w r)) = logs r ++ [entry] ∧
      node_name entry = c ∧
      state_snapshot entry = state (step_run (execute_node repr g c w r)).
  Proof.
    destruct (nodes g !! c) as [node_def|] eqn:Hnode.
    - right.
      destruct (func node_def (w_heap w) (state r)) as [[h' st'] [res|e]] eqn:Hf.
      + rewrite (execute_node_returned _ _ _ _ _ _ _ _ Hnode Hf). simpl. eauto.
      + rewrite (execute_node_raised _ _ _ _ _ _ _ _ Hnode Hf). simpl. eauto.
    - left. by rewrite execute_node_missing.
  Qed.

  (** A pass that does not raise adds exactly one entry. *)
Lemma execute_node_continue_logs g c w r w' r' next :
    execute_node repr g c w r = Continue w' r' next →
    ∃ entry, logs r' = logs r ++ [entry] ∧ node_name entry = c ∧
             log_status entry = "success" ∧
             state_snapshot entry = state r' ∧
             visited_nodes r' = visited_nodes r ++ [c] ∧
             next = first_or_none (get_next_nodes g c (w_heap w') (state r')).
  Proof.
    destruct (nodes g !! c) as [node_def|] eqn:Hnode.
    - destruct (func node_def (w_heap w) (state r)) as [[h' st'] [res|e]] eqn:Hf.
      + rewrite (execute_node_returned _ _ _ _ _ _ _ _ Hnode Hf).
        intros [= <- <- <-]. simpl. eauto 10.
      + by rewrite (execute_node_raised _ _ _ _ _ _ _ _ Hnode Hf).
    - by rewrite execute_node_missing.
  Qed.

  (** ** The loop *)

  (** The [while] loop, unfolded once: with enough fuel the definition is
      the loop of the source. *)
Lemma while_loop_unfold fuel g max_iterations current_node iteration w r :
    max_iterations - iteration ≤ Z.of_nat fuel →
    while_loop repr fuel g max_iterations current_node iteration w r =
    if truthy_node current_node && (iteration <? max_iterations) then
      match current_node with
      | None => LoopExit w r current_node iteration
      | Some c =>
          match execute_node repr g c w r with
          | Continue w' r' next =>
              while_loop repr (pred fuel) g max_iterations next
                (iteration + 1) w' r'
          | Abort w' r' e => LoopRaised w' r' e
          end
      end
    else LoopExit w r current_node iteration.
  Proof.
    intros Hfuel. destruct fuel as [|fuel]; simpl; [| done].
    replace (iteration <? max_iterations) with false by (symmetry; lia).
    by rewrite andb_false_r.
  Qed.

Lemma while_loop_fuel_irrelevant fuel1 fuel2 g max_iterations current_node
      iteration w r :
    max_iterations - iteration ≤ Z.of_nat fuel1 →
    max_iterations - iteration ≤ Z.of_nat fuel2 →
    while_loop repr fuel1 g max_iterations current_node iteration w r =
    while_loop repr fuel2 g max_iterations current_node iteration w r.
  Proof.
    revert fuel2 current_node iteration w r.
    induction fuel1 as [|fuel1 IH]; intros fuel2 cur it w r H1 H2.
    - rewrite (while_loop_unfold 0), (while_loop_unfold fuel2) by done.
      replace (it <? max_iterations) with false by (symmetry; lia).
      by rewrite andb_false_r.
    - rewrite (while_loop_unfold (S fuel1)), (while_loop_unfold fuel2) by done.
      destruct (truthy_node cur && (it <? max_iterations)) eqn:Hc; [| done].
      apply andb_prop in Hc as [_ Hlt]. apply Z.ltb_lt in Hlt.
      destruct cur as [c|]; [| done].
      destruct (execute_node repr g c w r); [| done].
      apply IH; simpl; lia.
  Qed.

Lemma execute_node_found g c w r node_def :
  nodes g !! c = Some node_def →
  ∃ entry,
    logs (step_run (execute_node repr g c w r)) = logs r ++ [entry] ∧
    node_name entry = c.
Proof.
  intros Hnode.
  destruct (func node_def (w_heap w) (state r)) as [[h' st'] [res|e]] eqn:Hf.
  - rewrite (execute_node_returned _ _ _ _ _ _ _ _ Hnode Hf). simpl. eauto.
  - rewrite (execute_node_raised _ _ _ _ _ _ _ _ Hnode Hf). simpl. eauto.
Qed.

(** The log is append-only: whatever the loop does, the entries written
    before are still there, unchanged and in the same place. *)
Lemma while_loop_logs_prefix fuel g max_iterations current_node iteration w r :
  logs r `prefix_of`
  logs (loop_run (while_loop repr fuel g max_iterations current_node
                    iteration w r)).
Proof.
  revert current_node iteration w r.
  induction fuel as [|fuel IH]; intros cur it w r; simpl; [done |].
  destruct (truthy_node cur && (it <? max_iterations)); [| done].
  destruct cur as [c|]; [| done].
  pose proof (execute_node_logs g c w r) as Hl.
  destruct (execute_node repr g c w r) as [w' r' next|w' r' e]; simpl in *.
  - etrans; [| apply IH].
    destruct Hl as [-> | (entry & -> & _)]; [done | by apply prefix_app_r].
  - destruct Hl as [-> | (entry & -> & _)]; [done | by apply prefix_app_r].
Qed.

(** When the loop is left through its test, every pass has written one log
    entry and one visited node. *)
Lemma while_loop_exit_count fuel g max_iterations current_node iteration w r
    w' r' current_node' iteration' :
  while_loop repr fuel g max_iterations current_node iteration w r =
    LoopExit w' r' current_node' iteration' →
  iteration ≤ iteration' ∧
  Z.of_nat (length (logs r')) =
    Z.of_nat (length (logs r)) + (iteration' - iteration) ∧
  Z.of_nat (length (visited_nodes r')) =
    Z.of_nat (length (visited_nodes r)) + (iteration' - iteration).
Proof.
  revert current_node iteration w r.
  induction fuel as [|fuel IH]; intros cur it w r; simpl.
  - intros [= <- <- <- <-]. lia.
  - destruct (truthy_node cur && (it <? max_iterations));
      [| intros [= <- <- <- <-]; lia].
    destruct cur as [c|]; [| intros [= <- <- <- <-]; lia].
    destruct (execute_node repr g c w r) as [w1 r1 next|w1 r1 e] eqn:Hstep;
      [| done].
    apply execute_node_continue_logs in Hstep
      as (entry & Hlogs & _ & _ & _ & Hvis & _).
    intros Hloop. apply IH in Hloop as (Hle & Hl & Hv).
    rewrite Hlogs, Hvis in *. rewrite !length_app in *. simpl in *. lia.
Qed.

(** Why the loop is left through its test: [current_node] is falsy or the
    counter has reached the cap, which it never passes. *)
Lemma while_loop_exit_reason fuel g max_iterations current_node iteration w r
    w' r' current_node' iteration' :
  max_iterations - iteration ≤ Z.of_nat fuel →
  while_loop repr fuel g max_iterations current_node iteration w r =
    LoopExit w' r' current_node' iteration' →
  (truthy_node current_node' = false ∨ max_iterations ≤ iteration') ∧
  iteration' ≤ Z.max iteration max_iterations.
Proof.
  revert current_node iteration w r.
  induction fuel as [|fuel IH]; intros cur it w r Hfuel; simpl.
  - intros [= <- <- <- <-]. lia.
  - destruct (truthy_node cur && (it <? max_iterations)) eqn:Hc.
    + apply andb_prop in Hc as [Hcur Hlt]. apply Z.ltb_lt in Hlt.
      destruct cur as [c|]; [| done].
      destruct (execute_node repr g c w r) as [w1 r1 next|w1 r1 e]; [| done].
      intros Hloop. apply IH in Hloop as [Hr Hm]; [| lia].
      split; [done | lia].
    + intros [= <- <- <- <-]. apply andb_false_iff in Hc as [Hc | Hc].
      * split; [by left | lia].
      * apply Z.ltb_ge in Hc. lia.
Qed.

(** Passes that do not raise are steps of the loop. *)
Lemma while_loop_passes fuel g max_iterations cf cf' :
  passes repr g max_iterations cf cf' →
  max_iterations - cf_iteration cf ≤ Z.of_nat fuel →
  while_loop repr fuel g max_iterations (cf_current cf) (cf_iteration cf)
    (cf_world cf) (cf_run cf) =
  while_loop repr fuel g max_iterations (cf_current cf') (cf_iteration cf')
    (cf_world cf') (cf_run cf').
Proof.
  induction 1 as [cf | c it w r w1 r1 next cf' Hc Hlt Hstep Hrest IH];
    intros Hfuel; [done |]; simpl in *.
  rewrite while_loop_unfold by done. simpl.
  rewrite bool_decide_eq_false_2 by done. simpl.
  replace (it <? max_iterations) with true by (symmetry; lia).
  rewrite Hstep.
  rewrite (while_loop_fuel_irrelevant (pred fuel) fuel) by lia.
  apply IH. lia.
Qed.

(** ** [execute] *)

Lemma execute_valid ex w initial_state max_iterations :
  (validate (graph ex)).1 = true →
  execute repr ex w initial_state max_iterations =
  after_loop ex (effective_max_iterations max_iterations)
    (run_loop repr (graph ex) (effective_max_iterations max_iterations)
       (new_run initial_state w).2 (new_run initial_state w).1).
Proof.
  unfold execute. destruct (validate (graph ex)) as [v msg]. simpl.
  by intros ->.
Qed.

Lemma execute_invalid ex w initial_state max_iterations :
  (validate (graph ex)).1 = false →
  execute repr ex w initial_state max_iterations =
  (ex, w, Raise (ValueError ("Invalid graph: " +:+ (validate (graph ex)).2))).
Proof.
  unfold execute. destruct (validate (graph ex)) as [v msg]. simpl.
  by intros ->.
Qed.

(** Whatever the loop did, [execute] leaves a finished run in [self.run],
    with the state, the log and the visited nodes the loop left. *)
Lemma after_loop_run ex max_iterations res :
  ∃ rf,
    (after_loop ex max_iterations res).1.1 =
      mkWorkflowExecutor (graph ex) (Some rf) ∧
    state rf = state (loop_run res) ∧
    logs rf = logs (loop_run res) ∧
    visited_nodes rf = visited_nodes (loop_run res) ∧
    is_Some (completed_at rf) ∧
    (status rf = COMPLETED ∨ status rf = FAILED).
Proof.
  destruct res as [w r cur it|w r e]; simpl.
  - destruct (it >=? max_iterations); simpl; eexists; simpl; eauto 10.
  - eexists; simpl; eauto 10.
Qed.

Lemma after_loop_raised ex max_iterations w r e :
  after_loop ex max_iterations (LoopRaised w r e) =
  (mkWorkflowExecutor (graph ex)
     (Some (mkWorkflowRun (state r) FAILED (logs r) (created_at r)
              (Some (clock w)) (Some (exn_str e)) (visited_nodes r))),
   mkWorld (w_heap w) (S (clock w)),
   Raise e).
Proof. done. Qed.

(** * The claims *)

(** ** Graph definition *)

(** C7. For a name that is already in the node map, [add_node] raises the
    duplicate-node error ([ValueError], "Node '<name>' already exists") and
    leaves the graph as it was: the stored node is still the one registered
    first, and the node map, the edge list and the entry point are those of
    before the call. *)
Theorem add_node_duplicate (g : Graph) (name : string) (f : node_func)
    (description : string) (first : NodeDefinition) :
  nodes g !! name = Some first →
  (add_node g name f description).2 =
    Some (ValueError ("Node '" +:+ name +:+ "' already exists")) ∧
  (add_node g name f description).1 = g ∧
  nodes (add_node g name f description).1 !! name = Some first ∧
  nodes (add_node g name f description).1 = nodes g ∧
  edges (add_node g name f description).1 = edges g ∧
  entry_point (add_node g name f description).1 = entry_point g.
Proof.
  intros Hfirst. unfold add_node.
  rewrite bool_decide_eq_true_2 by (rewrite Hfirst; eauto). simpl.
  by rewrite Hfirst.
Qed.

Lemma add_node_duplicate_witness :
  nodes single_graph !! "a" = Some (mkNodeDefinition "a" nop "") ∧
  (add_node single_graph "a" boom "again").1 = single_graph ∧
  func <$> nodes (add_node single_graph "a" boom "again").1 !! "a" = Some nop.
Proof.
  assert (nodes single_graph !! "a" = Some (mkNodeDefinition "a" nop ""))
    as Hfirst by reflexivity.
  destruct (add_node_duplicate single_graph "a" boom "again" _ Hfirst)
    as (_ & Hsame & Hnode & _).
  split; [exact Hfirst |]. split; [exact Hsame |].
  rewrite Hnode. reflexivity.
Defined.

Lemma apply_op_nodes_kept g o n :
  is_Some (nodes g !! n) → is_Some (nodes (apply_op g o) !! n).
Proof.
  intros Hn. destruct o as [name f d|a b c d|name]; simpl.
  - unfold add_node. case_bool_decide; simpl; [done |].
    destruct (decide (name = n)) as [->|Hne].
    + rewrite lookup_insert_eq. eauto.
    + by rewrite lookup_insert_ne.
  - unfold add_edge. repeat (case_bool_decide; simpl); done.
  - unfold set_entry_point. case_bool_decide; simpl; done.
Qed.

Lemma apply_op_entry_point_ok g o :
  entry_point_ok g → entry_point_ok (apply_op g o).
Proof.
  intros [Hnone Hsome]. destruct o as [name f d|a b c d|name]; simpl.
  - unfold add_node. case_bool_decide as Hin; simpl; [done |].
    split; simpl.
    + by destruct (entry_point g).
    + intros e He. destruct (entry_point g) as [e0|] eqn:Hentry.
      * injection He as <-. specialize (Hsome e0 eq_refl).
        destruct (decide (name = e0)) as [->|Hne].
        -- rewrite lookup_insert_eq. eauto.
        -- by rewrite lookup_insert_ne.
      * injection He as <-. rewrite lookup_insert_eq. eauto.
  - unfold add_edge. repeat (case_bool_decide; simpl); done.
  - unfold set_entry_point. case_bool_decide as Hin; simpl; [| done].
    split; simpl; [done |]. by intros e [= <-].
Qed.

Lemma build_entry_point_ok name ops : entry_point_ok (build name ops).
Proof.
  unfold build.
  assert (entry_point_ok (new_graph name)) as Hstart by (split; done).
  revert Hstart. generalize (new_graph name).
  induction ops as [|o ops IH]; intros g Hg; simpl; [done |].
  apply IH. by apply apply_op_entry_point_ok.
Qed.

(** C10. On a graph built with [add_node], [add_edge] and
    [set_entry_point] only, the entry point is set as soon as there is a
    node, and it names a node of the graph (no operation removes a node).
    So [validate] answers [(True, "")] exactly when the graph has a node,
    and its only failure is "Graph has no nodes": the two branches about
    the entry point are never taken. *)
Theorem built_graph_entry_point (name : string) (ops : list graph_op) :
  let g := build name ops in
  (nodes g ≠ ∅ → is_Some (entry_point g)) ∧
  (∀ e, entry_point g = Some e → is_Some (nodes g !! e)) ∧
  (∀ o n, is_Some (nodes g !! n) → is_Some (nodes (apply_op g o) !! n)) ∧
  (validate g = (true, "") ↔ nodes g ≠ ∅) ∧
  (validate g = (true, "") ∨ validate g = (false, "Graph has no nodes")) ∧
  validate g ≠ (false, "No entry point set") ∧
  (∀ e, validate g ≠ (false, "Entry point '" +:+ e +:+ "' does not exist")).
Proof.
  intros g. destruct (build_entry_point_ok name ops) as [Hnone Hsome].
  fold g in Hnone, Hsome.
  assert (validate g = if bool_decide (nodes g = ∅)
                       then (false, "Graph has no nodes") else (true, ""))
    as Hv.
  { unfold validate. case_bool_decide as Hn; [done |].
    destruct (entry_point g) as [e|] eqn:He.
    - by rewrite bool_decide_eq_true_2 by eauto.
    - by destruct Hn; apply Hnone. }
  split.
  { intros Hn. destruct (entry_point g); [eauto |]. by destruct Hn; apply Hnone. }
  split; [done |].
  split; [intros o n; apply apply_op_nodes_kept |].
  rewrite Hv. case_bool_decide as Hn.
  - split; [split; [done | by intros ?] |].
    split; [by right |]. split; [done |]. by intros e.
  - split; [done |]. split; [by left |]. split; [done |]. by intros e.
Qed.

Lemma filter_enabled_sublist current_node h st es :
  sublist (List.filter (edge_enabled current_node h st) es)
    (List.filter (λ edge, bool_decide (from_node edge = current_node)) es).
Proof.
  induction es as [|edge es IH]; simpl; [constructor |].
  unfold edge_enabled at 1.
  case_bool_decide; simpl; [| done].
  destruct (match condition edge with Some c => c h st | None => true end);
    by constructor.
Qed.

(** C2. A node result that is a dictionary is merged into the run state by
    a shallow update: a key of the result takes the value of the result
    (a nested object is taken as it is, by reference, never merged with the
    one it replaces), a key that the result lacks keeps its value; a result
    that is not a dictionary ([None] included) leaves the state as it is.
    So [{a: 0, b: 2}] merged with [{a: 1}] is [{a: 1, b: 2}].  This is the
    state with which the executor goes on after a node has returned. *)
Theorem merge_result_shallow_update :
  (∀ (st d : dict),
     (∀ k v, d !! k = Some v → merge_result st (RDict d) !! k = Some v) ∧
     (∀ k, d !! k = None → merge_result st (RDict d) !! k = st !! k) ∧
     (∀ k l l', st !! k = Some (VRef l) → d !! k = Some (VRef l') →
                merge_result st (RDict d) !! k = Some (VRef l'))) ∧
  (∀ (st : dict) (res : result),
     isinstance_dict res = false → merge_result st res = st) ∧
  merge_result {["a" := VInt 0; "b" := VInt 2]} (RDict {["a" := VInt 1]}) =
    {["a" := VInt 1; "b" := VInt 2]} ∧
  (∀ g c w r node_def h' st' res,
     nodes g !! c = Some node_def →
     func node_def (w_heap w) (state r) = (h', st', Returned res) →
     ∃ w' r' next,
       execute_node repr g c w r = Continue w' r' next ∧
       w_heap w' = h' ∧ state r' = merge_result st' res).
Proof.
  assert (∀ (st d : dict), merge_result st (RDict d) = d ∪ st) as Hmerge.
  { intros st d. unfold merge_result. simpl. case_bool_decide as Hd; simpl.
    - subst d. by rewrite (left_id_L ∅ (∪)).
    - done. }
  split.
  { intros st d. rewrite Hmerge. split.
    - intros k v Hk. by apply lookup_union_Some_l.
    - split.
      + intros k Hk. by rewrite lookup_union_r.
      + intros k l l' _ Hk. by apply lookup_union_Some_l. }
  split.
  { intros st res Hres. unfold merge_result. rewrite Hres.
    by rewrite andb_false_r. }
  split.
  { rewrite Hmerge. apply map_eq. intros k.
    destruct (decide (k = "a")) as [->|Ha]; [done |].
    rewrite lookup_union_r by by rewrite lookup_singleton_ne.
    destruct (decide (k = "b")) as [->|Hb]; [done |].
    by rewrite !lookup_insert_ne. }
  intros g c w r node_def h' st' res Hnode Hf.
  rewrite (execute_node_returned _ _ _ _ _ _ _ _ Hnode Hf).
  do 3 eexists. split; [done |]. by split.
Qed.

(** ** Execution *)

(** C6. On a graph that [validate] rejects (no node, no entry point, or an
    entry point that is not a node), [execute] raises the invalid-graph
    error ([ValueError], "Invalid graph: " followed by the message of
    [validate]) before it creates a run: the executor, and with it the run
    it refers to, is as before the call, and so is the world (no node has
    run, no log was written). *)
Theorem execute_invalid_graph (ex : WorkflowExecutor) (w : world)
    (initial_state : dict) (max_iterations : option Z) :
  (nodes (graph ex) = ∅ ∨ entry_point (graph ex) = None ∨
   ∃ e, entry_point (graph ex) = Some e ∧ nodes (graph ex) !! e = None) →
  (validate (graph ex)).1 = false ∧
  execute repr ex w initial_state max_iterations =
    (ex, w,
     Raise (ValueError ("Invalid graph: " +:+ (validate (graph ex)).2))) ∧
  get_current_run (execute repr ex w initial_state max_iterations).1.1 =
    get_current_run ex.
Proof.
  intros Hbad. apply validate_false_iff in Hbad.
  split; [done |]. by rewrite execute_invalid.
Qed.

Lemma passes_iteration_le g max_iterations cf cf' :
  passes repr g max_iterations cf cf' → cf_iteration cf ≤ cf_iteration cf'.
Proof. induction 1; simpl in *; lia. Qed.

(** C4. When, in a run of [execute], the loop comes to a node whose
    function raises [e], the executor appends an error entry for that node
    whose error is [str(e)], does not add the node to [visited_nodes], sets
    the status of the run to [FAILED], its error to [str(e)] and its
    [completed_at], and then lets [e] reach the caller.  The finished run
    stays in [self.run], where the caller finds it with its log; the failed
    entry is the last one and the heap is the one the failing node left, so
    no other node has run after it. *)
Theorem node_error_fails_run (ex : WorkflowExecutor) (w0 : world)
    (initial_state : dict) (max_iterations : option Z) (c : string)
    (iteration : Z) (w : world) (r : WorkflowRun) (node_def : NodeDefinition)
    (h' : heap) (st' : dict) (e : exn) :
  (validate (graph ex)).1 = true →
  passes repr (graph ex) (effective_max_iterations max_iterations)
    (start_config (graph ex) (new_run initial_state w0).2
       (new_run initial_state w0).1)
    (mkConfig (Some c) iteration w r) →
  c ≠ "" →
  iteration < effective_max_iterations max_iterations →
  nodes (graph ex) !! c = Some node_def →
  func node_def (w_heap w) (state r) = (h', st', Raised e) →
  ∃ ex' w' rf entry,
    execute repr ex w0 initial_state max_iterations = (ex', w', Raise e) ∧
    get_current_run ex' = Some rf ∧
    graph ex' = graph ex ∧
    status rf = FAILED ∧
    error rf = Some (exn_str e) ∧
    is_Some (completed_at rf) ∧
    logs rf = logs r ++ [entry] ∧
    node_name entry = c ∧
    log_status entry = "error" ∧
    log_error entry = Some (exn_str e) ∧
    state_snapshot entry = st' ∧
    visited_nodes rf = visited_nodes r ∧
    state rf = st' ∧
    w_heap w' = h'.
Proof.
  intros Hvalid Hpasses Hc Hlt Hnode Hf.
  set (cap := effective_max_iterations max_iterations) in *.
  pose proof (passes_iteration_le _ _ _ _ Hpasses) as Hle. simpl in Hle.
  rewrite execute_valid by done. fold cap. unfold run_loop.
  pose proof (while_loop_passes (Z.to_nat cap) _ _ _ _ Hpasses) as Hloop.
  simpl in Hloop |- *. rewrite Hloop by lia.
  rewrite while_loop_unfold by lia. simpl.
  rewrite bool_decide_eq_false_2 by done. simpl.
  replace (iteration <? cap) with true by (symmetry; lia).
  rewrite (execute_node_raised _ _ _ _ _ _ _ _ Hnode Hf).
  rewrite after_loop_raised. simpl.
  do 4 eexists. split; [done |]. simpl. repeat split; eauto.
Qed.

(** C5. When the loop is left after [max_iterations] passes with a node
    still to run, the run ends with status [FAILED], with the error
    "Workflow exceeded maximum iterations (<max_iterations>)", and with
    exactly [max_iterations] log entries, one for each pass. *)
Theorem iteration_cap_failure (ex : WorkflowExecutor) (w : world)
    (initial_state : dict) (max_iterations : option Z) (w' : world)
    (r' : WorkflowRun) (c : string) :
  (validate (graph ex)).1 = true →
  run_loop repr (graph ex) (effective_max_iterations max_iterations)
    (new_run initial_state w).2 (new_run initial_state w).1 =
    LoopExit w' r' (Some c) (effective_max_iterations max_iterations) →
  ∃ ex' w'' rf,
    execute repr ex w initial_state max_iterations =
      (ex', w'',
       Raise (RuntimeError
                ("Workflow exceeded maximum iterations ("
                 +:+ pretty (effective_max_iterations max_iterations)
                 +:+ ")"))) ∧
    get_current_run ex' = Some rf ∧
    status rf = FAILED ∧
    error rf = Some ("Workflow exceeded maximum iterations ("
                     +:+ pretty (effective_max_iterations max_iterations)
                     +:+ ")") ∧
    is_Some (completed_at rf) ∧
    Z.of_nat (length (logs rf)) = effective_max_iterations max_iterations ∧
    Z.of_nat (length (visited_nodes rf)) =
      effective_max_iterations max_iterations.
Proof.
  intros Hvalid Hloop.
  set (cap := effective_max_iterations max_iterations) in *.
  rewrite execute_valid by done. fold cap. rewrite Hloop. simpl.
  replace (cap >=? cap) with true by (symmetry; lia).
  unfold run_loop in Hloop.
  apply while_loop_exit_count in Hloop as (_ & Hlogs & Hvis). simpl in *.
  do 3 eexists. split; [done |]. simpl.
  split; [done |]. split; [done |]. split; [done |]. split; [eauto |].
  split; simpl; lia.
Qed.

(** A loop that starts on a node of the graph, with a pass left, writes an
    entry for that node right after the entries it found. *)
Lemma while_loop_first_entry fuel g max_iterations c iteration w r node_def :
  c ≠ "" →
  iteration < max_iterations →
  max_iterations - iteration ≤ Z.of_nat fuel →
  nodes g !! c = Some node_def →
  ∃ entry rest,
    logs (loop_run (while_loop repr fuel g max_iterations (Some c) iteration
                      w r)) = logs r ++ entry :: rest ∧
    node_name entry = c.
Proof.
  intros Hc Hlt Hfuel Hnode.
  rewrite while_loop_unfold by done. simpl.
  rewrite bool_decide_eq_false_2 by done. simpl.
  replace (iteration <? max_iterations) with true by (symmetry; lia).
  destruct (execute_node_found g c w r node_def Hnode)
    as (entry & Hstep & Hname).
  exists entry.
  destruct (execute_node repr g c w r) as [w1 r1 next|w1 r1 e1];
    simpl in Hstep.
  - destruct (while_loop_logs_prefix (pred fuel) g max_iterations next
                (iteration + 1) w1 r1) as [rest Hrest].
    exists rest. rewrite Hrest, Hstep. by rewrite <- app_assoc.
  - exists []. simpl. by rewrite Hstep.
Qed.

(** C3. [get_next_nodes] returns the [to] ends of the edges that leave
    [current_node] and whose condition is absent or true on the state, in
    the order in which the edges were declared: it is the declared edge list
    filtered, hence a subsequence of the edges out of [current_node].  The
    executor takes the first element of that list as the next node, one
    node for each pass: when the node of a pass returns, the loop writes one
    entry for it and goes on from the first element of [get_next_nodes] on
    the merged state (from [None] when the list is empty); in a run of
    [execute] whose entry node returns, the second node to run is the first
    element of the list. *)
Theorem get_next_nodes_declaration_order (g : Graph) (current_node : string)
    (h : heap) (st : dict) :
  get_next_nodes g current_node h st = next_nodes_spec g current_node h st ∧
  sublist (get_next_nodes g current_node h st)
    (map to_node
       (List.filter (λ edge, bool_decide (from_node edge = current_node))
          (edges g))) ∧
  sublist (get_next_nodes g current_node h st) (map to_node (edges g)) ∧
  (∀ fuel max_iterations iteration w r node_def h' st' res,
     current_node ≠ "" →
     iteration < max_iterations →
     nodes g !! current_node = Some node_def →
     func node_def (w_heap w) (state r) = (h', st', Returned res) →
     ∃ w' r' entry,
       while_loop repr (S fuel) g max_iterations (Some current_node)
         iteration w r =
       while_loop repr fuel g max_iterations
         (first_or_none (get_next_nodes g current_node h'
                           (merge_result st' res)))
         (iteration + 1) w' r' ∧
       w_heap w' = h' ∧
       state r' = merge_result st' res ∧
       logs r' = logs r ++ [entry] ∧
       node_name entry = current_node ∧
       visited_nodes r' = visited_nodes r ++ [current_node] ∧
       (∀ n ns,
          get_next_nodes g current_node h' (merge_result st' res) = n :: ns →
          first_or_none (get_next_nodes g current_node h'
                           (merge_result st' res)) = Some n) ∧
       (get_next_nodes g current_node h' (merge_result st' res) = [] →
        first_or_none (get_next_nodes g current_node h'
                         (merge_result st' res)) = None)) ∧
  (∀ ex w0 initial_state max_iterations node_def h' st' res n ns node_def',
     graph ex = g →
     entry_point g = Some current_node →
     current_node ≠ "" →
     1 < effective_max_iterations max_iterations →
     nodes g !! current_node = Some node_def →
     func node_def (w_heap w0) initial_state = (h', st', Returned res) →
     get_next_nodes g current_node h' (merge_result st' res) = n :: ns →
     n ≠ "" →
     nodes g !! n = Some node_def' →
     ∃ rf first second rest,
       get_current_run
         (execute repr ex w0 initial_state max_iterations).1.1 = Some rf ∧
       logs rf = first :: second :: rest ∧
       node_name first = current_node ∧
       log_status first = "success" ∧
       node_name second = n).
Proof.
  assert (get_next_nodes g current_node h st =
          next_nodes_spec g current_node h st) as Hspec
    by apply get_next_nodes_loop_spec.
  split; [done |]. rewrite Hspec. unfold next_nodes_spec.
  split; [apply map_sublist, filter_enabled_sublist |].
  split; [apply map_sublist, filter_sublist |].
  split.
  - intros fuel cap it w r node_def h' st' res Hc Hlt Hnode Hf. simpl.
    rewrite bool_decide_eq_false_2 by done. simpl.
    replace (it <? cap) with true by (symmetry; lia).
    rewrite (execute_node_returned _ _ _ _ _ _ _ _ Hnode Hf).
    do 3 eexists. split; [done |]. simpl.
    split; [done |]. split; [done |]. split; [done |]. split; [done |].
    split; [done |]. split; [by intros n ns -> | by intros ->].
  - intros ex w0 initial_state max_iterations node_def h' st' res n ns
      node_def' Hg Hentry Hc Hcap Hnode Hf Hnext Hn Hnode'. subst g.
    assert ((validate (graph ex)).1 = true) as Hvalid.
    { apply validate_true_iff. split; [| eauto].
      intros Hempty. by rewrite Hempty, lookup_empty in Hnode. }
    rewrite execute_valid by done.
    set (cap := effective_max_iterations max_iterations) in *.
    destruct (after_loop_run ex cap
                (run_loop repr (graph ex) cap (new_run initial_state w0).2
                   (new_run initial_state w0).1))
      as (rf & Hex & _ & Hlogs & _).
    rewrite Hex. exists rf.
    unfold run_loop in Hlogs. rewrite while_loop_unfold in Hlogs by lia.
    rewrite Hentry in Hlogs. simpl in Hlogs.
    rewrite bool_decide_eq_false_2 in Hlogs by done. simpl in Hlogs.
    replace (0 <? cap) with true in Hlogs by (symmetry; lia).
    rewrite (execute_node_returned (graph ex) current_node
               (mkWorld (w_heap w0) (S (clock w0)))
               (mkWorkflowRun initial_state RUNNING [] (clock w0) None None
                  [])
               node_def h' st' res Hnode Hf) in Hlogs.
    rewrite Hnext in Hlogs. simpl in Hlogs.
    match type of Hlogs with
    | _ = logs (loop_run (while_loop ?f ?b ?c ?d ?e ?f' ?g ?h)) =>
        destruct (while_loop_first_entry b c d n f' g h node_def' Hn
                    ltac:(lia) ltac:(simpl; lia) Hnode')
          as (second & rest & Hl & Hname)
    end.
    rewrite Hl in Hlogs. simpl in Hlogs.
    eexists _, second, rest. split; [done |]. split; [exact Hlogs |].
    by split.
Qed.


(** What [execute] makes of a loop left through its test: the run is
    completed when the counter is below the cap, and failed with the
    iteration-limit error when the counter has reached it, whatever
    [current_node] is by then. *)
Lemma execute_loop_exit ex w initial_state max_iterations w' r' current_node
    iteration :
  (validate (graph ex)).1 = true →
  run_loop repr (graph ex) (effective_max_iterations max_iterations)
    (new_run initial_state w).2 (new_run initial_state w).1 =
    LoopExit w' r' current_node iteration →
  (iteration < effective_max_iterations max_iterations →
   ∃ ex' w'' rf,
     execute repr ex w initial_state max_iterations = (ex', w'', Return rf) ∧
     get_current_run ex' = Some rf ∧ status rf = COMPLETED ∧
     is_Some (completed_at rf)) ∧
  (effective_max_iterations max_iterations ≤ iteration →
   ∃ ex' w'' rf,
     execute repr ex w initial_state max_iterations =
       (ex', w'',
        Raise (RuntimeError
                 ("Workflow exceeded maximum iterations ("
                  +:+ pretty (effective_max_iterations max_iterations)
                  +:+ ")"))) ∧
     get_current_run ex' = Some rf ∧ status rf = FAILED).
Proof.
  intros Hvalid Hloop.
  set (cap := effective_max_iterations max_iterations) in *.
  rewrite execute_valid by done. fold cap. rewrite Hloop. simpl.
  unfold run_loop in Hloop.
  clear Hloop. split; intros Hit.
  - replace (iteration >=? cap) with false by (symmetry; lia).
    do 3 eexists. split; [done |]. simpl. split; [done |].
    split; [done |]. eauto.
  - replace (iteration >=? cap) with true by (symmetry; lia).
    do 3 eexists. split; [done |]. simpl. by split.
Qed.

End ExecutorFacts.

(** * The claims on sample graphs *)

Lemma execute_invalid_graph_witness :
  nodes (new_graph "empty") = ∅ ∧
  execute quote
    (mkWorkflowExecutor (new_graph "empty") (Some (new_run ∅ empty_world).1))
    empty_world {["x" := VInt 1]} None =
  (mkWorkflowExecutor (new_graph "empty") (Some (new_run ∅ empty_world).1),
   empty_world,
   Raise (ValueError "Invalid graph: Graph has no nodes")).
Proof.
  split; [reflexivity |].
  destruct (execute_invalid_graph quote
              (mkWorkflowExecutor (new_graph "empty")
                 (Some (new_run ∅ empty_world).1))
              empty_world {["x" := VInt 1]} None)
    as (_ & Hexec & _); [left; reflexivity | exact Hexec].
Defined.

Lemma node_error_fails_run_witness :
  ∃ ex' w' rf first last,
    execute quote (new_executor failing_graph) empty_world ∅ None =
      (ex', w', Raise (ValueError "boom")) ∧
    get_current_run ex' = Some rf ∧
    status rf = FAILED ∧
    error rf = Some "boom" ∧
    is_Some (completed_at rf) ∧
    logs rf = [first; last] ∧
    node_name last = "b" ∧
    log_status last = "error" ∧
    log_error last = Some "boom" ∧
    visited_nodes rf = ["a"].
Proof.
  edestruct (node_error_fails_run quote (new_executor failing_graph)
               empty_world ∅ None "b" 1)
    as (ex' & w' & rf & entry & Hexec & Hrun & _ & Hstatus & Herror & Hdone
        & Hlogs & Hname & Hlstatus & Hlerror & _ & Hvisited & _).
  - reflexivity.
  - eapply (passes_step quote failing_graph _ "a" 0); [done | done | |].
    + vm_compute. reflexivity.
    + apply passes_refl.
  - done.
  - done.
  - reflexivity.
  - reflexivity.
  - exists ex', w', rf. eexists. exists entry.
    split; [exact Hexec |]. split; [exact Hrun |]. split; [exact Hstatus |].
    split; [exact Herror |]. split; [exact Hdone |].
    split; [exact Hlogs |]. split; [exact Hname |].
    split; [exact Hlstatus |]. split; [exact Hlerror |]. exact Hvisited.
Defined.

Lemma iteration_cap_failure_witness :
  ∃ ex' w' rf,
    execute quote (new_executor looping_graph) empty_world ∅ (Some 2) =
      (ex', w',
       Raise (RuntimeError "Workflow exceeded maximum iterations (2)")) ∧
    get_current_run ex' = Some rf ∧
    status rf = FAILED ∧
    error rf = Some "Workflow exceeded maximum iterations (2)" ∧
    Z.of_nat (length (logs rf)) = 2.
Proof.
  edestruct (iteration_cap_failure quote (new_executor looping_graph)
               empty_world ∅ (Some 2))
    as (ex' & w' & rf & Hexec & Hrun & Hstatus & Herror & _ & Hlogs & _).
  - reflexivity.
  - vm_compute. reflexivity.
  - exists ex', w', rf.
    split; [exact Hexec |]. split; [exact Hrun |]. split; [exact Hstatus |].
    split; [exact Herror |]. exact Hlogs.
Defined.


(** C8, where the code departs from it.  The snapshot is taken with
    [dict.copy()], which copies the top level only: the snapshot logged
    for ["make"] and the live state hold the same list, and the first
    entry, which read [[]] when it was logged, reads [[1]] once ["push"]
    has appended to that list. *)
Lemma snapshot_shares_nested_list :
  ∃ w1 r1 w2 r2 e1 e2 l ex' rf,
    execute_node quote items_graph "make" (new_run ∅ empty_world).2
      (new_run ∅ empty_world).1 = Continue w1 r1 (Some "push") ∧
    execute_node quote items_graph "push" w1 r1 = Continue w2 r2 None ∧
    logs r1 = [e1] ∧
    logs r2 = [e1; e2] ∧
    state_snapshot e1 !! "items" = Some (VRef l) ∧
    state r2 !! "items" = Some (VRef l) ∧
    view (w_heap w1) (state_snapshot e1) !! "items" =
      Some (VRef l, Some (OList [])) ∧
    view (w_heap w2) (state_snapshot e1) !! "items" =
      Some (VRef l, Some (OList [VInt 1])) ∧
    execute quote (new_executor items_graph) empty_world ∅ None =
      (ex', mkWorld (w_heap w2) (S (clock w2)), Return rf) ∧
    logs rf = [e1; e2].
Proof.
  do 9 eexists.
  split; [vm_compute; reflexivity |].
  split; [vm_compute; reflexivity |].
  split; [reflexivity |]. split; [reflexivity |].
  split; [vm_compute; reflexivity |]. split; [vm_compute; reflexivity |].
  split; [vm_compute; reflexivity |]. split; [vm_compute; reflexivity |].
  split; [vm_compute; reflexivity | reflexivity].
Qed.

(** C1, where the code departs from it.  On a graph with one node and no
    edge, called with [max_iterations = 1], the loop is left with
    [current_node = None] after its first pass (the run has come to its
    natural end on the last pass the cap allows); [execute] nevertheless
    raises the iteration-limit error and marks the run [FAILED].  With a cap
    of [2] the same run is [COMPLETED]. *)
Theorem natural_end_on_last_pass_fails :
  ∃ w' r' ex' w'' rf ex2 w2 rf2,
    run_loop quote single_graph 1 (new_run ∅ empty_world).2
      (new_run ∅ empty_world).1 = LoopExit w' r' None 1 ∧
    visited_nodes r' = ["a"] ∧
    execute quote (new_executor single_graph) empty_world ∅ (Some 1) =
      (ex', w'',
       Raise (RuntimeError "Workflow exceeded maximum iterations (1)")) ∧
    get_current_run ex' = Some rf ∧
    status rf = FAILED ∧
    error rf = Some "Workflow exceeded maximum iterations (1)" ∧
    execute quote (new_executor single_graph) empty_world ∅ (Some 2) =
      (ex2, w2, Return rf2) ∧
    status rf2 = COMPLETED ∧
    visited_nodes rf2 = ["a"].
Proof.
  do 8 eexists.
  split; [vm_compute; reflexivity |]. split; [reflexivity |].
  split; [vm_compute; reflexivity |]. split; [reflexivity |].
  split; [reflexivity |]. split; [reflexivity |].
  split; [vm_compute; reflexivity |]. split; reflexivity.
Qed.

(** Two enabled edges out of ["a"]: the targets come in declaration order,
    the edge whose condition is false is left out, and the executor goes on
    with the first target. *)
Example branching_next_nodes :
  get_next_nodes branching_graph "a" ∅ {["a" := VInt 1]} = ["b"; "c"] ∧
  ∃ w' r',
    execute_node quote branching_graph "a" (new_run ∅ empty_world).2
      (new_run ∅ empty_world).1 = Continue w' r' (Some "b") ∧
    visited_nodes r' = ["a"].
Proof.
  split; [reflexivity |].
  do 2 eexists. split; [vm_compute; reflexivity | reflexivity].
Qed.

(** * Further properties of the graph layer *)

(** [add_node] with a name that is not in the graph: no error, the node is
    stored under its name with the function given, the other nodes and the
    edges are untouched, and the name becomes the entry point only when
    none was set. *)
Theorem add_node_fresh (g : Graph) (name : string) (f : node_func)
    (description : string) :
  nodes g !! name = None →
  (add_node g name f description).2 = None ∧
  nodes (add_node g name f description).1 !! name =
    Some (mkNodeDefinition name f description) ∧
  (∀ n, n ≠ name →
        nodes (add_node g name f description).1 !! n = nodes g !! n) ∧
  edges (add_node g name f description).1 = edges g ∧
  entry_point (add_node g name f description).1 =
    Some (default name (entry_point g)).
Proof.
  intros Hfresh. unfold add_node.
  rewrite bool_decide_eq_false_2 by (rewrite Hfresh; by intros [? ?]).
  simpl. split; [done |]. split; [by rewrite lookup_insert_eq |].
  split; [by intros n Hn; rewrite lookup_insert_ne |].
  split; [done |]. by destruct (entry_point g).
Qed.

Lemma add_node_fresh_witness :
  entry_point (add_node single_graph "b" boom "").1 = Some "a" ∧
  entry_point (add_node (new_graph "g") "b" boom "").1 = Some "b".
Proof.
  split.
  - destruct (add_node_fresh single_graph "b" boom "") as (_ & _ & _ & _ & H);
      [reflexivity | exact H].
  - destruct (add_node_fresh (new_graph "g") "b" boom "")
      as (_ & _ & _ & _ & H); [reflexivity | exact H].
Defined.

(** [add_edge] with an end that is not a node raises and leaves the graph
    as it was.  The source is checked first: when it is missing the message
    names the source, whatever the destination is. *)
Theorem add_edge_unknown_node (g : Graph) (a b : string)
    (c : option edge_cond) (description : string) :
  nodes g !! a = None ∨ nodes g !! b = None →
  (add_edge g a b c description).1 = g ∧
  (nodes g !! a = None →
   (add_edge g a b c description).2 =
     Some (ValueError ("Source node '" +:+ a +:+ "' does not exist"))) ∧
  (is_Some (nodes g !! a) →
   (add_edge g a b c description).2 =
     Some (ValueError ("Destination node '" +:+ b +:+ "' does not exist"))).
Proof.
  intros Hmissing. unfold add_edge.
  destruct (nodes g !! a) as [na|] eqn:Ha.
  - rewrite bool_decide_eq_true_2 by eauto. simpl.
    destruct Hmissing as [? | Hb]; [done |]. rewrite Hb.
    rewrite bool_decide_eq_false_2 by (by intros [? ?]). simpl.
    split; [done |]. by split.
  - rewrite bool_decide_eq_false_2 by (by intros [? ?]). simpl.
    split; [done |]. split; [done |]. by intros [? ?].
Qed.

Lemma add_edge_unknown_node_witness :
  (add_edge single_graph "x" "y" None "").2 =
    Some (ValueError "Source node 'x' does not exist") ∧
  (add_edge single_graph "a" "y" None "").2 =
    Some (ValueError "Destination node 'y' does not exist").
Proof.
  split.
  - destruct (add_edge_unknown_node single_graph "x" "y" None "")
      as (_ & H & _); [left; reflexivity | exact (H eq_refl)].
  - destruct (add_edge_unknown_node single_graph "a" "y" None "")
      as (_ & _ & H); [right; reflexivity | apply H; vm_compute; eauto].
Defined.

Lemma get_next_nodes_loop_app es1 es2 current_node h st :
  get_next_nodes_loop (es1 ++ es2) current_node h st [] =
  get_next_nodes_loop es1 current_node h st [] ++
  get_next_nodes_loop es2 current_node h st [].
Proof.
  rewrite !get_next_nodes_loop_spec. by rewrite List.filter_app, map_app.
Qed.

(** [add_edge] between two nodes: no error, the edge goes to the end of the
    edge list, nodes and entry point are untouched.  For every node and
    state the list of next nodes keeps what it had, in the same order, and
    gains the new target at its end when the new edge applies: a new edge
    never takes precedence over an edge declared before it. *)
Theorem add_edge_appends (g : Graph) (a b : string) (c : option edge_cond)
    (description : string) :
  is_Some (nodes g !! a) →
  is_Some (nodes g !! b) →
  (add_edge g a b c description).2 = None ∧
  edges (add_edge g a b c description).1 =
    edges g ++ [mkEdgeDefinition a b c description] ∧
  nodes (add_edge g a b c description).1 = nodes g ∧
  entry_point (add_edge g a b c description).1 = entry_point g ∧
  ∀ current_node h st,
    get_next_nodes (add_edge g a b c description).1 current_node h st =
    get_next_nodes g current_node h st ++
    (if edge_enabled current_node h st (mkEdgeDefinition a b c description)
     then [b] else []).
Proof.
  intros Ha Hb. unfold add_edge.
  rewrite !bool_decide_eq_true_2 by done. simpl.
  split; [done |]. split; [done |]. split; [done |]. split; [done |].
  intros current_node h st. unfold get_next_nodes. simpl.
  rewrite get_next_nodes_loop_app. f_equal.
  rewrite get_next_nodes_loop_spec. simpl.
  by destruct (edge_enabled _ _ _ _).
Qed.

Lemma add_edge_appends_witness :
  get_next_nodes (add_edge looping_graph "a" "a" None "again").1 "a" ∅ ∅ =
  ["a"; "a"].
Proof.
  destruct (add_edge_appends looping_graph "a" "a" None "again")
    as (_ & _ & _ & _ & H); [vm_compute; eauto | vm_compute; eauto |].
  rewrite H. reflexivity.
Defined.

(** [set_entry_point]: a name that is not a node raises and leaves the
    graph as it was; a node becomes the entry point, whatever the entry
    point was, and nodes and edges are untouched.  The graph is then valid,
    so the validation that [create_graph] runs next cannot fail. *)
Theorem set_entry_point_cases (g : Graph) (name : string) :
  (nodes g !! name = None →
   set_entry_point g name =
     (g, Some (ValueError ("Node '" +:+ name +:+ "' does not exist")))) ∧
  (is_Some (nodes g !! name) →
   (set_entry_point g name).2 = None ∧
   entry_point (set_entry_point g name).1 = Some name ∧
   nodes (set_entry_point g name).1 = nodes g ∧
   edges (set_entry_point g name).1 = edges g ∧
   validate (set_entry_point g name).1 = (true, "")).
Proof.
  unfold set_entry_point. split.
  - intros Hn. by rewrite bool_decide_eq_false_2 by (rewrite Hn; by intros [? ?]).
  - intros Hn. rewrite bool_decide_eq_true_2 by done. simpl.
    split; [done |]. split; [done |]. split; [done |]. split; [done |].
    unfold validate. simpl. case_bool_decide as Hempty.
    + rewrite Hempty, lookup_empty in Hn. by destruct Hn.
    + by rewrite bool_decide_eq_true_2.
Qed.

Lemma apply_op_edges_ok g o : edges_ok g → edges_ok (apply_op g o).
Proof.
  intros Hok. destruct o as [name f d|a b c d|name]; simpl.
  - intros edge Hedge.
    assert (edge ∈ edges g) as Hin.
    { revert Hedge. unfold add_node. by case_bool_decide. }
    destruct (Hok edge Hin) as [Hf Ht].
    split; by apply (apply_op_nodes_kept g (AddNode name f d)).
  - unfold add_edge. case_bool_decide as Ha; simpl; [| done].
    case_bool_decide as Hb; simpl; [| done].
    intros edge Hedge. apply elem_of_app in Hedge as [Hin | Hnew].
    + by apply Hok.
    + apply list_elem_of_singleton in Hnew as ->. by split.
  - unfold set_entry_point. by case_bool_decide.
Qed.

Lemma build_edges_ok (name : string) (ops : list graph_op) :
  edges_ok (build name ops).
Proof.
  unfold build.
  assert (edges_ok (new_graph name)) as Hstart.
  { intros edge Hedge. simpl in Hedge. by apply elem_of_nil in Hedge. }
  revert Hstart. generalize (new_graph name).
  induction ops as [|o ops IH]; intros g Hg; simpl; [done |].
  apply IH. by apply apply_op_edges_ok.
Qed.

(** On a graph built with the public operations, every edge joins two
    nodes of the graph: [add_edge] checks both ends and no operation
    removes a node. *)
Theorem built_graph_edges_join_nodes (name : string) (ops : list graph_op)
    (edge : EdgeDefinition) :
  edge ∈ edges (build name ops) →
  is_Some (nodes (build name ops) !! from_node edge) ∧
  is_Some (nodes (build name ops) !! to_node edge).
Proof. apply build_edges_ok. Qed.

Lemma built_graph_edges_join_nodes_witness :
  is_Some (nodes looping_graph !! "a").
Proof.
  destruct (built_graph_edges_join_nodes "looping"
              [AddNode "a" nop ""; AddEdge "a" "a" None ""]
              (mkEdgeDefinition "a" "a" None "")) as [_ Hto].
  - vm_compute. apply list_elem_of_here.
  - exact Hto.
Defined.

Lemma get_next_nodes_elem g current_node h st n :
  n ∈ get_next_nodes g current_node h st →
  ∃ edge, edge ∈ edges g ∧ from_node edge = current_node ∧
          to_node edge = n ∧ edge_enabled current_node h st edge = true.
Proof.
  unfold get_next_nodes. rewrite get_next_nodes_loop_spec.
  rewrite list_elem_of_In, in_map_iff.
  intros (edge & Hto & Hin). apply filter_In in Hin as [Hin Hen].
  exists edge. rewrite list_elem_of_In. split; [done |].
  split; [| done]. unfold edge_enabled in Hen.
  apply andb_prop in Hen as [Hfrom _]. by apply bool_decide_eq_true in Hfrom.
Qed.

(** On a graph built with the public operations, whatever [get_next_nodes]
    returns is a node of the graph, and only a node of the graph has next
    nodes. *)
Theorem get_next_nodes_are_nodes (name : string) (ops : list graph_op)
    (current_node : string) (h : heap) (st : dict) (n : string) :
  n ∈ get_next_nodes (build name ops) current_node h st →
  is_Some (nodes (build name ops) !! n) ∧
  is_Some (nodes (build name ops) !! current_node).
Proof.
  intros Hn. apply get_next_nodes_elem in Hn
    as (edge & Hin & Hfrom & Hto & _).
  destruct (build_edges_ok name ops edge Hin) as [Hf Ht].
  by rewrite <- Hfrom, <- Hto.
Qed.

Lemma get_next_nodes_are_nodes_witness :
  is_Some (nodes branching_graph !! "b").
Proof.
  refine (proj1 (get_next_nodes_are_nodes "branching"
                   [AddNode "a" set_a ""; AddNode "b" nop "";
                    AddNode "c" nop "";
                    AddEdge "a" "c" (Some (a_is 0)) "";
                    AddEdge "a" "b" None "";
                    AddEdge "b" "c" None "";
                    AddEdge "a" "c" (Some (a_is 1)) ""]
                   "a" ∅ {["a" := VInt 1]} "b" _)).
  vm_compute. apply list_elem_of_here.
Defined.

Section ExecutorMore.

Variable repr : string → string.



(** A pass through the loop body leaves the status, the error and the two
    dates of the run alone. *)
Lemma execute_node_keeps_fields g c w r :
  status (step_run (execute_node repr g c w r)) = status r ∧
  error (step_run (execute_node repr g c w r)) = error r ∧
  created_at (step_run (execute_node repr g c w r)) = created_at r ∧
  completed_at (step_run (execute_node repr g c w r)) = completed_at r.
Proof.
  destruct (nodes g !! c) as [node_def|] eqn:Hnode.
  - destruct (func node_def (w_heap w) (state r)) as [[h' st'] [res|e]] eqn:Hf.
    + by rewrite (execute_node_returned _ _ _ _ _ _ _ _ _ Hnode Hf).
    + by rewrite (execute_node_raised _ _ _ _ _ _ _ _ _ Hnode Hf).
  - by rewrite execute_node_missing.
Qed.

Lemma while_loop_keeps_fields fuel g max_iterations current_node iteration
    w r :
  error (loop_run (while_loop repr fuel g max_iterations current_node
                     iteration w r)) = error r ∧
  created_at (loop_run (while_loop repr fuel g max_iterations current_node
                          iteration w r)) = created_at r.
Proof.
  revert current_node iteration w r.
  induction fuel as [|fuel IH]; intros cur it w r; simpl; [done |].
  destruct (truthy_node cur && (it <? max_iterations)); [| done].
  destruct cur as [c|]; [| done].
  destruct (execute_node_keeps_fields g c w r) as (_ & He & Hc & _).
  destruct (execute_node repr g c w r) as [w' r' next|w' r' e]; simpl in *.
  - destruct (IH next (it + 1) w' r') as [He' Hc']. by rewrite He', Hc'.
  - done.
Qed.

(** The loop runs at most [max_iterations - iteration] passes, so it writes
    at most that many log entries. *)
Lemma while_loop_logs_bound fuel g max_iterations current_node iteration w r :
  Z.of_nat (length (logs (loop_run (while_loop repr fuel g max_iterations
                                      current_node iteration w r)))) ≤
  Z.of_nat (length (logs r)) + Z.max 0 (max_iterations - iteration).
Proof.
  revert current_node iteration w r.
  induction fuel as [|fuel IH]; intros cur it w r; simpl; [lia |].
  destruct (truthy_node cur && (it <? max_iterations)) eqn:Hcond; [| simpl; lia].
  apply andb_prop in Hcond as [_ Hlt]. apply Z.ltb_lt in Hlt.
  destruct cur as [c|]; [| simpl; lia].
  pose proof (execute_node_logs repr g c w r) as Hl.
  destruct (execute_node repr g c w r) as [w' r' next|w' r' e]; simpl in *.
  - specialize (IH next (it + 1) w' r').
    destruct Hl as [Hl | (entry & Hl & _)]; rewrite Hl in IH;
      rewrite ?length_app in IH; simpl in IH; lia.
  - destruct Hl as [Hl | (entry & Hl & _)]; rewrite Hl;
      rewrite ?length_app; simpl; lia.
Qed.

(** The cap bounds the work of a run: after [execute] on a valid graph the
    log has at most [max_iterations] entries (none when the cap is
    negative), where [max_iterations] is 1000 when the argument is absent
    or [0]. *)
Theorem execute_logs_bound (ex : WorkflowExecutor) (w : world)
    (initial_state : dict) (max_iterations : option Z) :
  (validate (graph ex)).1 = true →
  ∃ rf,
    get_current_run
      (execute repr ex w initial_state max_iterations).1.1 = Some rf ∧
    Z.of_nat (length (logs rf)) ≤
      Z.max 0 (effective_max_iterations max_iterations).
Proof.
  intros Hvalid. rewrite execute_valid by done.
  set (cap := effective_max_iterations max_iterations).
  destruct (after_loop_run ex cap
              (run_loop repr (graph ex) cap (new_run initial_state w).2
                 (new_run initial_state w).1))
    as (rf & Hex & _ & Hlogs & _).
  rewrite Hex. exists rf. split; [done |]. rewrite Hlogs. unfold run_loop.
  pose proof (while_loop_logs_bound (Z.to_nat cap) (graph ex) cap
                (entry_point (graph ex)) 0 (new_run initial_state w).2
                (new_run initial_state w).1) as Hb.
  simpl in Hb. simpl. lia.
Qed.

End ExecutorMore.

Section ExecutorLog.

Variable repr : string → string.

Lemma filter_succeeded_app l1 l2 :
  List.filter succeeded (l1 ++ l2) =
  List.filter succeeded l1 ++ List.filter succeeded l2.
Proof. apply List.filter_app. Qed.

(** While no pass has raised, the log holds one successful entry for each
    visited node, in the order of the visits. *)
Lemma while_loop_log_shape fuel g max_iterations current_node iteration w r :
  Forall (λ entry, succeeded entry = true) (logs r) →
  visited_nodes r = map node_name (logs r) →
  let r' := loop_run (while_loop repr fuel g max_iterations current_node
                        iteration w r) in
  visited_nodes r' = map node_name (List.filter succeeded (logs r')) ∧
  match while_loop repr fuel g max_iterations current_node iteration w r with
  | LoopExit _ _ _ _ =>
      Forall (λ entry, succeeded entry = true) (logs r')
  | LoopRaised _ _ e =>
      Forall (λ entry, succeeded entry = true) (logs r') ∨
      ∃ done_ last,
        logs r' = done_ ++ [last] ∧
        Forall (λ entry, succeeded entry = true) done_ ∧
        log_status last = "error" ∧
        log_error last = Some (exn_str e)
  end.
Proof.
  assert (∀ l, Forall (λ entry, succeeded entry = true) l →
               List.filter succeeded l = l) as Hfilter.
  { induction 1 as [|x l Hx _ IH]; simpl; [done |]. by rewrite Hx, IH. }
  revert current_node iteration w r.
  induction fuel as [|fuel IH]; intros cur it w r Hall Hvis; simpl.
  { by rewrite Hfilter. }
  destruct (truthy_node cur && (it <? max_iterations));
    [| simpl; by rewrite Hfilter].
  destruct cur as [c|]; [| simpl; by rewrite Hfilter].
  destruct (nodes g !! c) as [node_def|] eqn:Hnode.
  - destruct (func node_def (w_heap w) (state r)) as [[h' st'] [res|e]] eqn:Hf.
    + rewrite (execute_node_returned _ _ _ _ _ _ _ _ _ Hnode Hf).
      apply IH; simpl.
      * apply Forall_app. split; [done |]. by repeat constructor.
      * by rewrite Hvis, map_app.
    + rewrite (execute_node_raised _ _ _ _ _ _ _ _ _ Hnode Hf). simpl.
      split.
      * rewrite filter_succeeded_app, Hfilter by done. simpl.
        by rewrite app_nil_r.
      * right. eexists _, _. split; [done |]. by repeat split.
  - rewrite execute_node_missing by done. simpl.
    split; [by rewrite Hfilter | by left].
Qed.

(** After [execute] on a valid graph, [visited_nodes] lists the nodes of
    the successful log entries, in order.  When [execute] returns, every
    entry is a success; when it raises, either every entry is a success
    (the iteration limit, or a missing node) or the last entry alone is an
    error, with [str] of the exception raised. *)
Theorem execute_log_shape (ex : WorkflowExecutor) (w : world)
    (initial_state : dict) (max_iterations : option Z) :
  (validate (graph ex)).1 = true →
  ∃ rf,
    get_current_run
      (execute repr ex w initial_state max_iterations).1.1 = Some rf ∧
    visited_nodes rf = map node_name (List.filter succeeded (logs rf)) ∧
    match (execute repr ex w initial_state max_iterations).2 with
    | Return _ => Forall (λ entry, succeeded entry = true) (logs rf)
    | Raise e =>
        Forall (λ entry, succeeded entry = true) (logs rf) ∨
        ∃ done_ last,
          logs rf = done_ ++ [last] ∧
          Forall (λ entry, succeeded entry = true) done_ ∧
          log_status last = "error" ∧
          log_error last = Some (exn_str e)
    end.
Proof.
  intros Hvalid. rewrite execute_valid by done.
  set (cap := effective_max_iterations max_iterations).
  unfold run_loop.
  destruct (while_loop_log_shape (Z.to_nat cap) (graph ex) cap
              (entry_point (graph ex)) 0 (new_run initial_state w).2
              (new_run initial_state w).1) as [Hvis Hshape];
    [by constructor | done |].
  destruct (while_loop repr _ _ _ _ _ _ _) as [w1 r1 cur it|w1 r1 e];
    simpl in *.
  - destruct (it >=? cap); simpl; eexists; (split; [done |]); simpl;
      split; try done. by left.
  - eexists. split; [done |]. simpl. by split.
Qed.

(** A negative cap: on a valid graph [execute] runs no node and raises the
    iteration-limit error at once; the failed run has the initial state and
    an empty log, and the heap is untouched. *)
Theorem execute_negative_cap (ex : WorkflowExecutor) (w : world)
    (initial_state : dict) (n : Z) :
  (validate (graph ex)).1 = true →
  n < 0 →
  execute repr ex w initial_state (Some n) =
  (mkWorkflowExecutor (graph ex)
     (Some (mkWorkflowRun initial_state FAILED [] (clock w)
              (Some (S (clock w)))
              (Some ("Workflow exceeded maximum iterations ("
                     +:+ pretty n +:+ ")"))
              [])),
   mkWorld (w_heap w) (S (S (clock w))),
   Raise (RuntimeError ("Workflow exceeded maximum iterations ("
                        +:+ pretty n +:+ ")"))).
Proof.
  intros Hvalid Hn. rewrite execute_valid by done.
  assert (effective_max_iterations (Some n) = n) as ->.
  { simpl. by replace (n =? 0) with false by (symmetry; lia). }
  unfold run_loop. rewrite while_loop_unfold by lia.
  replace (0 <? n) with false by (symmetry; lia).
  rewrite andb_false_r. simpl.
  by replace (0 >=? n) with true by (symmetry; lia).
Qed.

(** An entry point that is the empty string: the name is falsy in the loop
    test, so under any cap that is not negative [execute] runs no node and
    returns a [COMPLETED] run with the initial state and an empty log. *)
Theorem execute_empty_entry_name (ex : WorkflowExecutor) (w : world)
    (initial_state : dict) (max_iterations : option Z) :
  (validate (graph ex)).1 = true →
  entry_point (graph ex) = Some "" →
  0 ≤ effective_max_iterations max_iterations →
  execute repr ex w initial_state max_iterations =
  (mkWorkflowExecutor (graph ex)
     (Some (mkWorkflowRun initial_state COMPLETED [] (clock w)
              (Some (S (clock w))) None [])),
   mkWorld (w_heap w) (S (S (clock w))),
   Return (mkWorkflowRun initial_state COMPLETED [] (clock w)
             (Some (S (clock w))) None [])).
Proof.
  intros Hvalid Hentry Hcap. rewrite execute_valid by done.
  assert (0 < effective_max_iterations max_iterations) as Hpos.
  { destruct max_iterations as [n|]; simpl in *; [| done].
    destruct (n =? 0) eqn:Hz; [done |]. apply Z.eqb_neq in Hz. lia. }
  unfold run_loop. rewrite while_loop_unfold by lia. rewrite Hentry. simpl.
  by replace (0 >=? effective_max_iterations max_iterations)
    with false by (symmetry; lia).
Qed.

End ExecutorLog.

(** * Storage *)

(** [GraphStore]: a saved graph is found under its [graph_id], replacing
    what was saved under that identifier before, and no other identifier
    is affected.  [delete] answers [True] exactly when the identifier is in
    the store; afterwards the identifier is not found, the others are as
    before; on a missing identifier the store is unchanged. *)
Theorem GraphStore_round_trip (s : GraphStore) (g : GraphObject)
    (id : string) :
  GraphStore_get (GraphStore_save s g) (graph_id g) = Some g ∧
  (id ≠ graph_id g →
   GraphStore_get (GraphStore_save s g) id = GraphStore_get s id) ∧
  ((GraphStore_delete s id).2 = true ↔ is_Some (GraphStore_get s id)) ∧
  GraphStore_get (GraphStore_delete s id).1 id = None ∧
  (∀ id', id' ≠ id →
     GraphStore_get (GraphStore_delete s id).1 id' = GraphStore_get s id') ∧
  (GraphStore_get s id = None → GraphStore_delete s id = (s, false)) ∧
  (GraphStore_delete (GraphStore_save s g) (graph_id g)).2 = true ∧
  GraphStore_get
    (GraphStore_delete (GraphStore_save s g) (graph_id g)).1 (graph_id g) =
    None.
Proof.
  unfold GraphStore_get, GraphStore_save, GraphStore_delete. simpl.
  split; [apply lookup_insert_eq |].
  split; [intros Hne; by apply lookup_insert_ne |].
  split; [case_bool_decide; simpl; split; (done || by intros [? ?]) |].
  split.
  { case_bool_decide as Hin; simpl; [apply lookup_delete_eq |].
    by apply eq_None_not_Some. }
  split.
  { intros id' Hne. case_bool_decide; simpl; [| done].
    by apply lookup_delete_ne. }
  split.
  { intros Hnone. rewrite bool_decide_eq_false_2; [done |].
    rewrite Hnone. by intros [? ?]. }
  rewrite bool_decide_eq_true_2 by (rewrite lookup_insert_eq; eauto).
  simpl. split; [done |]. apply lookup_delete_eq.
Qed.

(** [RunStore] behaves in the same way, under [run_id]. *)
Theorem RunStore_round_trip (s : RunStore) (r : RunObject) (id : string) :
  RunStore_get (RunStore_save s r) (run_id r) = Some r ∧
  (id ≠ run_id r →
   RunStore_get (RunStore_save s r) id = RunStore_get s id) ∧
  ((RunStore_delete s id).2 = true ↔ is_Some (RunStore_get s id)) ∧
  RunStore_get (RunStore_delete s id).1 id = None ∧
  (∀ id', id' ≠ id →
     RunStore_get (RunStore_delete s id).1 id' = RunStore_get s id') ∧
  (RunStore_get s id = None → RunStore_delete s id = (s, false)).
Proof.
  unfold RunStore_get, RunStore_save, RunStore_delete. simpl.
  split; [apply lookup_insert_eq |].
  split; [intros Hne; by apply lookup_insert_ne |].
  split; [case_bool_decide; simpl; split; (done || by intros [? ?]) |].
  split.
  { case_bool_decide as Hin; simpl; [apply lookup_delete_eq |].
    by apply eq_None_not_Some. }
  split.
  { intros id' Hne. case_bool_decide; simpl; [| done].
    by apply lookup_delete_ne. }
  intros Hnone. rewrite bool_decide_eq_false_2; [done |].
  rewrite Hnone. by intros [? ?].
Qed.

(** [list_by_graph] gives exactly the stored runs whose graph has the
    identifier asked for, each under its own key; a run saved for another
    graph does not show, a run saved for this graph does. *)
Theorem RunStore_list_by_graph_spec (s : RunStore) (gid : string)
    (id : string) (r : RunObject) :
  (RunStore_list_by_graph s gid !! id = Some r ↔
   RunStore_get s id = Some r ∧ graph_id (ro_graph r) = gid) ∧
  RunStore_list_by_graph s gid ⊆ RunStore_list_all s ∧
  RunStore_list_by_graph (RunStore_save s r) (graph_id (ro_graph r))
    !! run_id r = Some r ∧
  (graph_id (ro_graph r) ≠ gid →
   RunStore_list_by_graph (RunStore_save s r) gid !! run_id r = None).
Proof.
  unfold RunStore_list_by_graph, RunStore_get, RunStore_list_all,
    RunStore_save. simpl.
  split; [by rewrite map_lookup_filter_Some |].
  split; [apply map_filter_subseteq |].
  split.
  - apply map_lookup_filter_Some. split; [apply lookup_insert_eq | done].
  - intros Hne. apply map_lookup_filter_None. right.
    intros r'. rewrite lookup_insert_eq. by intros [= <-].
Qed.

(** * Tool registry *)

(** [register] never fails: the tool registered last under a name is the
    one found, with its description, also when the name was taken; the
    other names keep their tool and their description. *)
Theorem register_get {T} (reg : ToolRegistry T) (name : string) (f : T)
    (description : string) :
  get_tool (register reg name f description) name = Some f ∧
  tool_exists (register reg name f description) name = true ∧
  list_tools (register reg name f description) !! name = Some description ∧
  (∀ f0 d0,
     get_tool (register (register reg name f0 d0) name f description) name =
       Some f ∧
     list_tools (register (register reg name f0 d0) name f description)
       !! name = Some description) ∧
  (∀ other, other ≠ name →
     get_tool (register reg name f description) other = get_tool reg other ∧
     tool_exists (register reg name f description) other =
       tool_exists reg other ∧
     list_tools (register reg name f description) !! other =
       list_tools reg !! other).
Proof.
  unfold get_tool, tool_exists, list_tools, register. simpl.
  split; [apply lookup_insert_eq |].
  split; [rewrite lookup_insert_eq; by apply bool_decide_eq_true_2 |].
  split; [apply lookup_insert_eq |].
  split; [intros f0 d0; by rewrite !lookup_insert_eq |].
  intros other Hne. by rewrite !lookup_insert_ne.
Qed.

Lemma register_all_same_names {T} (reg : ToolRegistry T)
    (l : list (string * T * string)) :
  dom (tools reg) = dom (descriptions reg) →
  dom (tools (register_all reg l)) = dom (descriptions (register_all reg l)).
Proof.
  revert reg. induction l as [|[[name f] d] l IH]; intros reg Hdom; [done |].
  apply IH. simpl. rewrite !dom_insert_L. by rewrite Hdom.
Qed.

(** In a registry filled by [register] alone, the tools and the
    descriptions have the same names: a name exists exactly when
    [list_tools] shows it, and exactly when [get] finds a tool. *)
Theorem registry_names_agree {T} (l : list (string * T * string))
    (name : string) :
  (tool_exists (register_all new_tool_registry l) name = true ↔
   is_Some (list_tools (register_all new_tool_registry l) !! name)) ∧
  (tool_exists (register_all new_tool_registry l) name = true ↔
   is_Some (get_tool (register_all new_tool_registry l) name)).
Proof.
  pose proof (register_all_same_names (@new_tool_registry T) l) as Hdom.
  unfold tool_exists, list_tools, get_tool.
  rewrite bool_decide_eq_true. split; [| done].
  rewrite <- !elem_of_dom. rewrite Hdom; [done |].
  simpl. by rewrite !dom_empty_L.
Qed.

(** [call] raises "Tool '<name>' not found in registry" exactly when the
    name does not exist, and otherwise gives what the registered tool gives
    on the arguments. *)
Theorem call_cases {A R} (reg : ToolRegistry (A → R)) (name : string)
    (args : A) :
  (tool_exists reg name = false →
   call reg name args =
     inl (ValueError ("Tool '" +:+ name +:+ "' not found in registry"))) ∧
  (∀ f, get_tool reg name = Some f → call reg name args = inr (f args)) ∧
  (tool_exists reg name = true ↔ ∃ y, call reg name args = inr y) ∧
  (∀ f d, call (register reg name f d) name args = inr (f args)).
Proof.
  unfold tool_exists, get_tool, call, register. simpl.
  split.
  { intros Hex. apply bool_decide_eq_false in Hex.
    destruct (tools reg !! name) as [f|]; [| done]. destruct Hex. eauto. }
  split; [by intros f -> |].
  split.
  { rewrite bool_decide_eq_true.
    destruct (tools reg !! name) as [f|]; split; eauto.
    - by intros [? ?].
    - by intros [? ?]. }
  intros f d. by rewrite lookup_insert_eq.
Qed.

(** * The data quality pipeline *)

(** [should_loop] is true exactly when [anomaly_count] (0 when absent) is a
    number above 1 and [iteration] (0 when absent) is a number below 5.
    Without an [anomaly_count], or with one that is at most 1, the answer
    is false whatever [iteration] holds, since [and] does not look at it. *)
Theorem should_loop_spec (st : dict) :
  (should_loop st = Some true ↔
   ∃ a i, int_of (state_get st "anomaly_count" (VInt 0)) = Some a ∧
          int_of (state_get st "iteration" (VInt 0)) = Some i ∧
          1 < a ∧ i < 5) ∧
  (st !! "anomaly_count" = None → should_loop st = Some false) ∧
  (∀ a, st !! "anomaly_count" = Some (VInt a) → a ≤ 1 →
        should_loop st = Some false) ∧
  (∀ a i, st !! "anomaly_count" = Some (VInt a) →
          st !! "iteration" = Some (VInt i) →
          should_loop st = Some (bool_decide (1 < a ∧ i < 5))) ∧
  (∀ a, st !! "anomaly_count" = Some (VInt a) → 1 < a →
        st !! "iteration" = None → should_loop st = Some true).
Proof.
  unfold should_loop, state_get.
  split.
  { destruct (int_of (default (VInt 0) (st !! "anomaly_count"))) as [a|];
      [| split; [done | by intros (? & ? & ? & _)]].
    destruct (1 <? a) eqn:Ha.
    - apply Z.ltb_lt in Ha.
      destruct (int_of (default (VInt 0) (st !! "iteration"))) as [i|];
        [| split; [done | by intros (? & ? & _ & ? & _)]].
      split.
      + intros [= Hi]. apply Z.ltb_lt in Hi. eauto 10.
      + intros (a' & i' & [= <-] & [= <-] & _ & Hi).
        f_equal. by apply Z.ltb_lt.
    - apply Z.ltb_ge in Ha. split; [done |].
      intros (a' & i' & [= <-] & _ & Ha' & _). lia. }
  split; [by intros -> |].
  split.
  { intros a -> Ha. simpl. by replace (1 <? a) with false by (symmetry; lia). }
  split.
  { intros a i -> ->. simpl. destruct (1 <? a) eqn:Ha.
    - apply Z.ltb_lt in Ha. f_equal. destruct (i <? 5) eqn:Hi.
      + apply Z.ltb_lt in Hi. by rewrite bool_decide_eq_true_2.
      + apply Z.ltb_ge in Hi. rewrite bool_decide_eq_false_2; [done | lia].
    - apply Z.ltb_ge in Ha. rewrite bool_decide_eq_false_2; [done | lia]. }
  intros a -> Ha ->. simpl. by replace (1 <? a) with true by (symmetry; lia).
Qed.

(** The pipeline graph is valid and starts at ["profile"].  Its first
    three nodes have one next node each, ["summarize"] has none.  After
    ["apply_rules"], with conditions that answer as [should_loop] and its
    negation do on the state, exactly one node is next: ["profile"] when
    [should_loop] is true, ["summarize"] when it is false. *)
Theorem pipeline_routing
    (profile_data identify_anomalies generate_rules apply_rules
       summarize_results : node_func)
    (loop_cond exit_cond : edge_cond) (h : heap) (st : dict) :
  let g := create_data_quality_pipeline profile_data identify_anomalies
             generate_rules apply_rules summarize_results loop_cond
             exit_cond in
  validate g = (true, "") ∧
  entry_point g = Some "profile" ∧
  get_next_nodes g "profile" h st = ["identify_anomalies"] ∧
  get_next_nodes g "identify_anomalies" h st = ["generate_rules"] ∧
  get_next_nodes g "generate_rules" h st = ["apply_rules"] ∧
  get_next_nodes g "summarize" h st = [] ∧
  get_next_nodes g "apply_rules" h st =
    (if loop_cond h st then ["profile"] else []) ++
    (if exit_cond h st then ["summarize"] else []) ∧
  (∀ b, should_loop st = Some b →
        loop_cond h st = b →
        exit_cond h st = negb b →
        get_next_nodes g "apply_rules" h st =
          [if b then "profile" else "summarize"]).
Proof.
  intros g.
  assert (get_next_nodes g "apply_rules" h st =
          (if loop_cond h st then ["profile"] else []) ++
          (if exit_cond h st then ["summarize"] else [])) as Happly.
  { unfold get_next_nodes. rewrite get_next_nodes_loop_spec.
    change (edges g) with
      [mkEdgeDefinition "profile" "identify_anomalies" None
         "Always proceed to anomaly detection";
       mkEdgeDefinition "identify_anomalies" "generate_rules" None
         "Always proceed to rule generation";
       mkEdgeDefinition "generate_rules" "apply_rules" None
         "Always proceed to rule application";
       mkEdgeDefinition "apply_rules" "profile" (Some loop_cond)
         "Loop back if anomalies remain and not exceeded max iterations";
       mkEdgeDefinition "apply_rules" "summarize" (Some exit_cond)
         "Proceed to summary when quality goals are met"].
    unfold edge_enabled. simpl.
    by destruct (loop_cond h st), (exit_cond h st). }
  split; [reflexivity |]. split; [reflexivity |].
  split; [reflexivity |]. split; [reflexivity |].
  split; [reflexivity |]. split; [reflexivity |].
  split; [exact Happly |].
  intros b _ Hl He. rewrite Happly, Hl, He. by destruct b.
Qed.

(** [register_data_quality_tools] makes the four tools known under their
    names, and running it again (as each call of
    [create_data_quality_pipeline] does) leaves the registry as it is. *)
Theorem register_data_quality_tools_idempotent {T} (reg : ToolRegistry T)
    (profile_data identify_anomalies generate_rules apply_rules : T) :
  let reg' := register_data_quality_tools reg profile_data
                identify_anomalies generate_rules apply_rules in
  get_tool reg' "profile_data" = Some profile_data ∧
  get_tool reg' "identify_anomalies" = Some identify_anomalies ∧
  get_tool reg' "generate_rules" = Some generate_rules ∧
  get_tool reg' "apply_rules" = Some apply_rules ∧
  register_data_quality_tools reg' profile_data identify_anomalies
    generate_rules apply_rules = reg'.
Proof.
  intros reg'. unfold reg', register_data_quality_tools, get_tool. simpl.
  split; [by simplify_map_eq |]. split; [by simplify_map_eq |].
  split; [by simplify_map_eq |]. split; [by simplify_map_eq |].
  unfold register. simpl. f_equal; apply map_eq; intros k;
    (destruct (decide (k = "apply_rules")) as [->|];
       [by simplify_map_eq |]);
    (destruct (decide (k = "generate_rules")) as [->|];
       [by simplify_map_eq |]);
    (destruct (decide (k = "identify_anomalies")) as [->|];
       [by simplify_map_eq |]);
    (destruct (decide (k = "profile_data")) as [->|];
       by simplify_map_eq).
Qed.

(** * Building and running graphs through the API *)

Lemma set_entry_point_valid (g : Graph) (name : string) :
  is_Some (nodes g !! name) →
  (set_entry_point g name).2 = None ∧
  validate (set_entry_point g name).1 = (true, "").
Proof.
  intros Hnode. unfold set_entry_point.
  rewrite bool_decide_eq_true_2 by done. simpl. split; [done |].
  unfold validate. simpl. case_bool_decide as Hempty.
  - rewrite Hempty, lookup_empty in Hnode. by destruct Hnode.
  - by rewrite bool_decide_eq_true_2.
Qed.

Lemma add_request_nodes_spec ns g :
  match add_request_nodes g ns with
  | (g', None) =>
      NoDup (map ni_name ns) ∧
      (∀ n, n ∈ map ni_name ns → nodes g !! n = None) ∧
      (∀ n, n ∉ map ni_name ns → nodes g' !! n = nodes g !! n) ∧
      (∀ n, n ∈ map ni_name ns →
            ∃ d, nodes g' !! n =
                   Some (mkNodeDefinition n (api_node_func n) d)) ∧
      edges g' = edges g ∧
      g_name g' = g_name g
  | (_, Some e) =>
      ¬ (NoDup (map ni_name ns) ∧
         ∀ n, n ∈ map ni_name ns → nodes g !! n = None)
  end.
Proof.
  revert g. induction ns as [|node ns IH]; intros g; simpl.
  { split; [constructor |]. split; [by intros n Hn%elem_of_nil |].
    split; [done |]. split; [by intros n Hn%elem_of_nil |]. done. }
  unfold add_node at 1. case_bool_decide as Hin; simpl.
  { intros [_ Hfree]. rewrite (Hfree (ni_name node)) in Hin.
    - by destruct Hin.
    - apply list_elem_of_here. }
  apply eq_None_not_Some in Hin.
  set (g1 := mkGraph _ _ _ _). specialize (IH g1).
  destruct (add_request_nodes g1 ns) as [g' [e|]].
  - intros [Hnodup Hfree]. apply IH.
    apply NoDup_cons in Hnodup as [Hnotin Hnodup]. split; [done |].
    intros n Hn. unfold g1. simpl. rewrite lookup_insert_ne.
    + apply Hfree. by apply list_elem_of_further.
    + by intros <-.
  - destruct IH as (Hnodup & Hfree & Hout & Hnew & Hedges & Hname).
    assert (ni_name node ∉ map ni_name ns) as Hnotin.
    { intros Hn. specialize (Hfree _ Hn). unfold g1 in Hfree. simpl in Hfree.
      by rewrite lookup_insert_eq in Hfree. }
    split; [by apply NoDup_cons |].
    split.
    { intros n [-> | Hn]%elem_of_cons; [done |].
      specialize (Hfree _ Hn). unfold g1 in Hfree. simpl in Hfree.
      rewrite lookup_insert_ne in Hfree; [done |]. by intros <-. }
    split.
    { intros n Hn. apply not_elem_of_cons in Hn as [Hne Hn].
      rewrite Hout by done. unfold g1. simpl. by rewrite lookup_insert_ne. }
    split; [| done].
    intros n [-> | Hn]%elem_of_cons; [| by apply Hnew].
    rewrite Hout by done. unfold g1. simpl. rewrite lookup_insert_eq. eauto.
Qed.

Lemma add_request_edges_spec es g :
  match add_request_edges g es with
  | (g', None) =>
      (∀ e, e ∈ es → is_Some (nodes g !! ei_from_node e) ∧
                      is_Some (nodes g !! ei_to_node e)) ∧
      nodes g' = nodes g ∧
      edges g' =
        edges g ++
        map (λ e, mkEdgeDefinition (ei_from_node e) (ei_to_node e) None
                    (ei_description e)) es ∧
      g_name g' = g_name g
  | (_, Some _) =>
      ¬ (∀ e, e ∈ es → is_Some (nodes g !! ei_from_node e) ∧
                        is_Some (nodes g !! ei_to_node e))
  end.
Proof.
  revert g. induction es as [|edge es IH]; intros g; simpl.
  { split; [by intros e He%elem_of_nil |]. by rewrite app_nil_r. }
  unfold add_edge at 1. case_bool_decide as Hfrom; simpl.
  - case_bool_decide as Hto; simpl.
    + set (g1 := mkGraph _ _ _ _). specialize (IH g1).
      destruct (add_request_edges g1 es) as [g' [e|]].
      * intros Hall. apply IH. intros e' He'. apply Hall.
        by apply list_elem_of_further.
      * destruct IH as (Hall & Hnodes & Hedges & Hname).
        split.
        { intros e' [-> | He']%elem_of_cons; [done | by apply Hall]. }
        split; [done |]. split; [| done].
        rewrite Hedges. unfold g1. simpl. by rewrite <- app_assoc.
    + intros Hall. destruct (Hall edge) as [_ ?]; [apply list_elem_of_here |].
      done.
  - intros Hall. destruct (Hall edge) as [? _]; [apply list_elem_of_here |].
    done.
Qed.

Lemma create_graph_spec (store : GraphStore) (new_id : string)
    (request : GraphCreateRequest) :
  let names := map ni_name (req_nodes request) in
  let well_formed :=
    NoDup names ∧
    (∀ e, e ∈ req_edges request →
          ei_from_node e ∈ names ∧ ei_to_node e ∈ names) ∧
    req_entry_point request ∈ names in
  (well_formed →
   ∃ g,
     create_graph store new_id request =
       (GraphStore_save store (mkGraphObject new_id g),
        inr (mkGraphObject new_id g)) ∧
     validate g = (true, "") ∧
     g_name g = req_name request ∧
     entry_point g = Some (req_entry_point request) ∧
     (∀ n, is_Some (nodes g !! n) ↔ n ∈ names) ∧
     (∀ n, n ∈ names → func <$> nodes g !! n = Some (api_node_func n)) ∧
     edges g =
       map (λ e, mkEdgeDefinition (ei_from_node e) (ei_to_node e) None
                   (ei_description e)) (req_edges request)) ∧
  (¬ well_formed →
   ∃ msg,
     create_graph store new_id request =
       (store, inl (mkHTTPException 400 msg))).
Proof.
  intros names well_formed. unfold create_graph.
  pose proof (add_request_nodes_spec (req_nodes request)
                (new_graph (req_name request))) as HA.
  destruct (add_request_nodes _ _) as [g1 [e1|]].
  { split; [| eauto]. intros (Hnodup & _ & _). destruct HA. by split. }
  destruct HA as (Hnodup & _ & Hout & Hnew & Hedges1 & Hname1).
  fold names in Hnodup, Hout, Hnew.
  assert (∀ n, is_Some (nodes g1 !! n) ↔ n ∈ names) as Hdom.
  { intros n. destruct (decide (n ∈ names)) as [Hn | Hn].
    - destruct (Hnew n Hn) as [d Hd]. rewrite Hd. split; eauto.
    - rewrite Hout by done. simpl. rewrite lookup_empty.
      split; [by intros [? ?] | done]. }
  pose proof (add_request_edges_spec (req_edges request) g1) as HB.
  destruct (add_request_edges _ _) as [g2 [e2|]].
  { split; [| eauto]. intros (_ & Hedges & _). destruct HB.
    intros e He. rewrite !Hdom. by apply Hedges. }
  destruct HB as (Hall & Hnodes2 & Hedges2 & Hname2).
  destruct (decide (req_entry_point request ∈ names)) as [Hentry | Hentry].
  - assert (is_Some (nodes g2 !! req_entry_point request)) as Hnode
      by (rewrite Hnodes2; by apply Hdom).
    destruct (set_entry_point_valid g2 _ Hnode) as [Hnone Hvalid].
    destruct (set_entry_point g2 (req_entry_point request)) as [g3 e3] eqn:Hset.
    simpl in Hnone, Hvalid. subst e3. rewrite Hvalid. simpl.
    assert (g3 = mkGraph (g_name g2) (nodes g2) (edges g2)
                   (Some (req_entry_point request))) as ->.
    { unfold set_entry_point in Hset.
      rewrite bool_decide_eq_true_2 in Hset by done. simpl in Hset.
      by injection Hset as <-. }
    split; [| intros Hbad; destruct Hbad; split; [done |];
              split; [| done]; intros e He;
              rewrite <- !Hdom; by apply Hall].
    intros _. eexists. split; [done |]. simpl.
    split; [done |]. split; [by rewrite Hname2, Hname1 |].
    split; [done |]. rewrite Hnodes2. split; [done |].
    split.
    + intros n Hn. destruct (Hnew n Hn) as [d ->]. done.
    + by rewrite Hedges2, Hedges1.
  - split; [by intros (_ & _ & ?) |]. intros _.
    unfold set_entry_point. rewrite bool_decide_eq_false_2.
    + simpl. eauto.
    + rewrite Hnodes2, Hdom. done.
Qed.

(** [create_graph] accepts a request exactly when its node names are
    pairwise distinct, every edge joins two of them and the entry point is
    one of them.  The graph stored then is valid, has those nodes, each
    with the function that returns its name as ["last_node"], the edges of
    the request in their order, all unconditional, and the entry point
    asked for.  Any other request is answered with status 400 and nothing
    is stored. *)
Theorem create_graph_accepts (store : GraphStore) (new_id : string)
    (request : GraphCreateRequest) :
  let names := map ni_name (req_nodes request) in
  let well_formed :=
    NoDup names ∧
    Forall (λ e, ei_from_node e ∈ names ∧ ei_to_node e ∈ names)
      (req_edges request) ∧
    req_entry_point request ∈ names in
  match create_graph store new_id request with
  | (store', inr obj) =>
      well_formed ∧
      store' = GraphStore_save store obj ∧
      graph_id obj = new_id ∧
      validate (go_graph obj) = (true, "") ∧
      g_name (go_graph obj) = req_name request ∧
      entry_point (go_graph obj) = Some (req_entry_point request) ∧
      (∀ n, is_Some (nodes (go_graph obj) !! n) ↔ n ∈ names) ∧
      (∀ n, n ∈ names →
            func <$> nodes (go_graph obj) !! n = Some (api_node_func n)) ∧
      edges (go_graph obj) =
        map (λ e, mkEdgeDefinition (ei_from_node e) (ei_to_node e) None
                    (ei_description e)) (req_edges request)
  | (store', inl err) =>
      ¬ well_formed ∧ store' = store ∧ status_code err = 400
  end.
Proof.
  intros names well_formed.
  destruct (create_graph_spec store new_id request) as [Hyes Hno].
  simpl in Hyes, Hno. fold names in Hyes, Hno.
  destruct (decide well_formed) as [Hwf | Hwf].
  - destruct Hwf as (Hnodup & Hedges & Hentry).
    destruct Hyes as (g & -> & Hfacts).
    { split; [done |]. split; [| done]. by apply Forall_forall. }
    split; [done |]. split; [done |]. split; [done |]. exact Hfacts.
  - destruct Hno as [msg ->].
    { intros (Hnodup & Hedges & Hentry). apply Hwf.
      split; [done |]. split; [| done]. by apply Forall_forall. }
    done.
Qed.

Section ApiFacts.

Variable repr : string → string.

Lemma while_loop_no_raise fuel g max_iterations current_node iteration w r :
  edges_ok g →
  (∀ n node_def, nodes g !! n = Some node_def → never_raises (func node_def)) →
  (∀ c, current_node = Some c → is_Some (nodes g !! c)) →
  ∃ w' r' current_node' iteration',
    while_loop repr fuel g max_iterations current_node iteration w r =
    LoopExit w' r' current_node' iteration'.
Proof.
  intros Hok Hfuncs. revert current_node iteration w r.
  induction fuel as [|fuel IH]; intros cur it w r Hcur; simpl; [eauto |].
  destruct (truthy_node cur && (it <? max_iterations)); [| eauto].
  destruct cur as [c|]; [| eauto].
  destruct (Hcur c eq_refl) as [node_def Hnode].
  destruct (Hfuncs c node_def Hnode (w_heap w) (state r))
    as (h' & st' & res & Hf).
  rewrite (execute_node_returned _ _ _ _ _ _ _ _ _ Hnode Hf).
  apply IH. intros n Hn.
  destruct (get_next_nodes g c h' (merge_result st' res)) as [|n' ns] eqn:Hns;
    [done |].
  injection Hn as ->.
  assert (n ∈ get_next_nodes g c h' (merge_result st' res)) as Hin
    by (rewrite Hns; apply list_elem_of_here).
  apply get_next_nodes_elem in Hin as (edge & Hin & _ & <- & _).
  by apply Hok.
Qed.

(** On a valid graph whose edges are all unconditional and join nodes of
    the graph, and whose node functions always return, [execute] can fail
    in one way only: the iteration-limit error, with the run [FAILED] and
    that message as its error.  Otherwise it returns the run, [COMPLETED]
    and without error.  Either way the finished run is in [self.run]. *)
Theorem execute_without_node_errors (ex : WorkflowExecutor) (w : world)
    (initial_state : dict) (max_iterations : option Z) :
  (validate (graph ex)).1 = true →
  edges_ok (graph ex) →
  (∀ edge, edge ∈ edges (graph ex) → condition edge = None) →
  (∀ n node_def, nodes (graph ex) !! n = Some node_def →
                 never_raises (func node_def)) →
  ∃ ex' w' out rf,
    execute repr ex w initial_state max_iterations = (ex', w', out) ∧
    get_current_run ex' = Some rf ∧
    is_Some (completed_at rf) ∧
    ((out = Return rf ∧ status rf = COMPLETED ∧ error rf = None) ∨
     (out = Raise (RuntimeError
                     ("Workflow exceeded maximum iterations ("
                      +:+ pretty (effective_max_iterations max_iterations)
                      +:+ ")")) ∧
      status rf = FAILED ∧
      error rf = Some ("Workflow exceeded maximum iterations ("
                       +:+ pretty (effective_max_iterations max_iterations)
                       +:+ ")"))).
Proof.
  intros Hvalid Hok _ Hfuncs. rewrite execute_valid by done.
  set (cap := effective_max_iterations max_iterations).
  unfold run_loop.
  destruct (while_loop_keeps_fields repr (Z.to_nat cap) (graph ex) cap
              (entry_point (graph ex)) 0 (new_run initial_state w).2
              (new_run initial_state w).1) as [Herr _].
  destruct (while_loop_no_raise (Z.to_nat cap) (graph ex) cap
              (entry_point (graph ex)) 0 (new_run initial_state w).2
              (new_run initial_state w).1 Hok Hfuncs)
    as (w1 & r1 & cur & it & Hloop).
  { intros c Hc. apply validate_true_iff in Hvalid as (_ & e & He & Hnode).
    rewrite Hc in He. by injection He as <-. }
  rewrite Hloop in Herr |- *. simpl in Herr |- *.
  destruct (it >=? cap); simpl; do 4 eexists; (split; [done |]); simpl;
    (split; [done |]); (split; [eauto |]).
  - by right.
  - left. by split.
Qed.

Lemma execute_return_completed ex w initial_state max_iterations ex' w' r :
  execute repr ex w initial_state max_iterations = (ex', w', Return r) →
  (validate (graph ex)).1 = true ∧ status r = COMPLETED ∧ error r = None ∧
  get_current_run ex' = Some r.
Proof.
  intros Hexec. destruct (validate (graph ex)).1 eqn:Hvalid.
  - split; [done |]. rewrite execute_valid in Hexec by done.
    unfold run_loop in Hexec.
    destruct (while_loop_keeps_fields repr
                (Z.to_nat (effective_max_iterations max_iterations))
                (graph ex) (effective_max_iterations max_iterations)
                (entry_point (graph ex)) 0 (new_run initial_state w).2
                (new_run initial_state w).1) as [Herr _].
    destruct (while_loop repr _ _ _ _ _ _ _) as [w1 r1 cur it|w1 r1 e];
      simpl in *; [| done].
    destruct (it >=? effective_max_iterations max_iterations);
      simpl in Hexec; [done |].
    by injection Hexec as <- <- <-.
  - rewrite execute_invalid in Hexec by done. done.
Qed.

(** [run_graph]: an unknown graph is answered with 404 and nothing else
    happens.  When [execute] raises, the answer is 500 with [str] of the
    exception and the run is not stored.  When [execute] returns, the run
    is stored under its identifier.  So every run that [run_graph] stores
    is [COMPLETED]: a failed run is never kept. *)
Theorem run_graph_cases (graph_store : GraphStore) (run_store : RunStore)
    (w : world) (new_run_id id : string) (initial_state : dict) :
  (GraphStore_get graph_store id = None →
   run_graph repr graph_store run_store w new_run_id id initial_state =
     (run_store, w, inl (mkHTTPException 404 "Graph not found"))) ∧
  (∀ g ex' w' e,
     GraphStore_get graph_store id = Some g →
     execute repr (new_executor (go_graph g)) w initial_state None =
       (ex', w', Raise e) →
     run_graph repr graph_store run_store w new_run_id id initial_state =
       (run_store, w', inl (mkHTTPException 500 (exn_str e)))) ∧
  (∀ g ex' w' r,
     GraphStore_get graph_store id = Some g →
     execute repr (new_executor (go_graph g)) w initial_state None =
       (ex', w', Return r) →
     run_graph repr graph_store run_store w new_run_id id initial_state =
       (RunStore_save run_store (mkRunObject new_run_id g r), w',
        inr (mkRunObject new_run_id g r))) ∧
  (∀ rs' w' res,
     run_graph repr graph_store run_store w new_run_id id initial_state =
       (rs', w', res) →
     (∃ err, res = inl err ∧ rs' = run_store) ∨
     (∃ obj, res = inr obj ∧ rs' = RunStore_save run_store obj ∧
             run_id obj = new_run_id ∧
             status (ro_run obj) = COMPLETED ∧
             RunStore_get rs' new_run_id = Some obj)).
Proof.
  unfold run_graph.
  split; [by intros -> |].
  split; [by intros g ex' w' e -> -> |].
  split; [by intros g ex' w' r -> -> |].
  intros rs' w' res.
  destruct (GraphStore_get graph_store id) as [g|];
    [| intros [= <- <- <-]; left; eauto].
  destruct (execute repr (new_executor (go_graph g)) w initial_state None)
    as [[ex1 w1] [r|e]] eqn:Hexec.
  - intros [= <- <- <-]. right. eexists. split; [done |]. split; [done |].
    simpl. split; [done |].
    apply execute_return_completed in Hexec as (_ & Hs & _).
    split; [done |]. unfold RunStore_get. simpl. apply lookup_insert_eq.
  - intros [= <- <- <-]. left. eauto.
Qed.

End ApiFacts.

Section ApiRun.

Variable repr : string → string.

Lemma api_node_func_never_raises name : never_raises (api_node_func name).
Proof. intros h st. unfold api_node_func. eauto. Qed.

(** A graph that [create_graph] has stored, run through [run_graph]: its
    nodes cannot fail, so the run is stored [COMPLETED], or the walk goes
    on for 1000 passes and the answer is 500 with the iteration-limit
    message, the run being dropped. *)
Theorem api_graph_run (store store' : GraphStore) (new_id : string)
    (request : GraphCreateRequest) (obj : GraphObject)
    (run_store : RunStore) (w : world) (new_run_id : string)
    (initial_state : dict) :
  create_graph store new_id request = (store', inr obj) →
  ∃ rs' w' res,
    run_graph repr store' run_store w new_run_id new_id initial_state =
      (rs', w', res) ∧
    ((∃ r, res = inr (mkRunObject new_run_id obj r) ∧
           status r = COMPLETED ∧
           rs' = RunStore_save run_store (mkRunObject new_run_id obj r)) ∨
     (res = inl (mkHTTPException 500
                   "Workflow exceeded maximum iterations (1000)") ∧
      rs' = run_store)).
Proof.
  intros Hcreate.
  destruct (create_graph_spec store new_id request) as [Hyes Hno].
  simpl in Hyes, Hno.
  set (names := map ni_name (req_nodes request)) in *.
  destruct (decide (NoDup names)) as [Hnodup|Hnodup];
    [| destruct Hno as [msg Hmsg]; [by intros [? _] | by rewrite Hmsg in Hcreate]].
  destruct (decide (Forall (λ e, ei_from_node e ∈ names ∧ ei_to_node e ∈ names)
                      (req_edges request))) as [Hedges|Hedges];
    [| destruct Hno as [msg Hmsg];
       [intros (_ & He & _); destruct Hedges; by apply Forall_forall
       | by rewrite Hmsg in Hcreate]].
  destruct (decide (req_entry_point request ∈ names)) as [Hentry|Hentry];
    [| destruct Hno as [msg Hmsg];
       [by intros (_ & _ & ?) | by rewrite Hmsg in Hcreate]].
  rewrite Forall_forall in Hedges.
  destruct Hyes as (g & Hg & Hvalid & _ & _ & Hdom & Hfunc & Hgedges);
    [done |].
  rewrite Hg in Hcreate. injection Hcreate as <- <-.
  assert (edges_ok g) as Hok.
  { intros edge Hedge. rewrite Hgedges in Hedge.
    apply list_elem_of_In, in_map_iff in Hedge as (e & <- & He).
    apply list_elem_of_In in He. simpl. rewrite !Hdom. by apply Hedges. }
  assert (∀ n node_def, nodes g !! n = Some node_def →
                        never_raises (func node_def)) as Hfuncs.
  { intros n node_def Hnode.
    assert (n ∈ names) as Hn by (apply Hdom; eauto).
    specialize (Hfunc n Hn). rewrite Hnode in Hfunc. simpl in Hfunc.
    injection Hfunc as ->. apply api_node_func_never_raises. }
  assert (∃ ex' w' out,
            execute repr (new_executor g) w initial_state None =
              (ex', w', out) ∧
            ((∃ rf, out = Return rf ∧ status rf = COMPLETED) ∨
             out = Raise (RuntimeError
                            "Workflow exceeded maximum iterations (1000)")))
    as (ex' & w' & out & Hexec & Hout).
  { assert ((validate (graph (new_executor g))).1 = true) as Hv
      by (simpl; by rewrite Hvalid).
    destruct (while_loop_no_raise repr (Z.to_nat 1000) g 1000
                (entry_point g) 0 (new_run initial_state w).2
                (new_run initial_state w).1 Hok Hfuncs)
      as (w1 & r1 & cur & it & Hloop).
    { intros c Hc. apply validate_true_iff in Hv as (_ & e & He & Hnode).
      simpl in He. rewrite Hc in He. by injection He as <-. }
    destruct (execute_loop_exit repr (new_executor g) w initial_state None
                w1 r1 cur it Hv Hloop) as [Hlt Hge].
    destruct (Z.lt_ge_cases it 1000) as [Hit | Hit].
    - destruct (Hlt Hit) as (ex' & w' & rf & Hexec & _ & Hs & _).
      exists ex', w', (Return rf). split; [done |]. left. eauto.
    - destruct (Hge Hit) as (ex' & w' & rf & Hexec & _).
      exists ex', w', (Raise (RuntimeError
                                "Workflow exceeded maximum iterations (1000)")).
      split; [exact Hexec |]. by right. }
  assert (GraphStore_get
            (GraphStore_save store (mkGraphObject new_id g)) new_id =
          Some (mkGraphObject new_id g)) as Hget
    by apply lookup_insert_eq.
  unfold run_graph. rewrite Hget. cbv zeta.
  change (go_graph (mkGraphObject new_id g)) with g. rewrite Hexec.
  destruct Hout as [(rf & -> & Hs) | ->].
  - do 3 eexists. split; [done |]. left. eauto.
  - do 3 eexists. split; [done |]. by right.
Qed.

End ApiRun.

(** * The further properties on sample inputs *)


Lemma execute_logs_bound_witness :
  ∃ rf,
    get_current_run
      (execute quote (new_executor looping_graph) empty_world ∅ (Some 3)).1.1 =
      Some rf ∧
    Z.of_nat (length (logs rf)) ≤ 3.
Proof.
  destruct (execute_logs_bound quote (new_executor looping_graph) empty_world
              ∅ (Some 3)) as (rf & Hrun & Hbound); [reflexivity |].
  exists rf. split; [exact Hrun | exact Hbound].
Defined.

Lemma execute_log_shape_witness :
  ∃ rf,
    get_current_run
      (execute quote (new_executor failing_graph) empty_world ∅ None).1.1 =
      Some rf ∧
    visited_nodes rf = map node_name (List.filter succeeded (logs rf)).
Proof.
  destruct (execute_log_shape quote (new_executor failing_graph) empty_world
              ∅ None) as (rf & Hrun & Hvis & _); [reflexivity |].
  exists rf. split; [exact Hrun | exact Hvis].
Defined.

Lemma execute_negative_cap_witness :
  (execute quote (new_executor single_graph) empty_world ∅ (Some (-1))).2 =
  Raise (RuntimeError "Workflow exceeded maximum iterations (-1)").
Proof.
  rewrite (execute_negative_cap quote (new_executor single_graph) empty_world
             ∅ (-1)); [reflexivity | reflexivity | reflexivity].
Defined.

Lemma execute_empty_entry_name_witness :
  (execute quote (new_executor unnamed_graph) empty_world ∅ (Some 7)).2 =
  Return (mkWorkflowRun ∅ COMPLETED [] 0 (Some 1%nat) None []).
Proof.
  rewrite (execute_empty_entry_name quote (new_executor unnamed_graph)
             empty_world ∅ (Some 7));
    [reflexivity | reflexivity | reflexivity | done].
Defined.

Lemma execute_without_node_errors_witness :
  ∃ ex' w' out,
    execute quote (new_executor looping_graph) empty_world ∅ (Some 2) =
      (ex', w', out).
Proof.
  destruct (execute_without_node_errors quote (new_executor looping_graph)
              empty_world ∅ (Some 2)) as (ex' & w' & out & rf & Hexec & _).
  - reflexivity.
  - apply (build_edges_ok "looping"
             [AddNode "a" nop ""; AddEdge "a" "a" None ""]).
  - intros edge Hedge.
    change (edges (graph (new_executor looping_graph))) with
      [mkEdgeDefinition "a" "a" None ""] in Hedge.
    by apply list_elem_of_singleton in Hedge as ->.
  - intros n node_def Hnode h st.
    change (nodes (graph (new_executor looping_graph))) with
      ({["a" := mkNodeDefinition "a" nop ""]} : gmap string NodeDefinition)
      in Hnode.
    apply lookup_singleton_Some in Hnode as [_ <-]. simpl. unfold nop. eauto.
  - exists ex', w', out. exact Hexec.
Defined.

(** A request with two nodes and an edge is accepted; a request that names
    a node twice, and a request without nodes, are answered with 400. *)
Example create_graph_examples :
  (∃ g, create_graph new_graph_store "id-1"
          (mkGraphCreateRequest "g" "a"
             [mkNodeInput "a" ""; mkNodeInput "b" ""]
             [mkEdgeInput "a" "b" ""]) =
        (GraphStore_save new_graph_store (mkGraphObject "id-1" g),
         inr (mkGraphObject "id-1" g))) ∧
  create_graph new_graph_store "id-1"
    (mkGraphCreateRequest "g" "a" [mkNodeInput "a" ""; mkNodeInput "a" ""] []) =
    (new_graph_store, inl (mkHTTPException 400 "Node 'a' already exists")) ∧
  create_graph new_graph_store "id-1" (mkGraphCreateRequest "g" "a" [] []) =
    (new_graph_store, inl (mkHTTPException 400 "Node 'a' does not exist")).
Proof.
  split; [eexists; reflexivity |]. split; reflexivity.
Qed.

Lemma api_graph_run_witness :
  ∃ rs' w' res,
    run_graph quote
      (GraphStore_save new_graph_store
         (mkGraphObject "id-1"
            (build "g"
               [AddNode "a" (api_node_func "a") "";
                AddNode "b" (api_node_func "b") "";
                AddEdge "a" "b" None ""; SetEntryPoint "a"])))
      new_run_store empty_world "run-1" "id-1" ∅ = (rs', w', res).
Proof.
  destruct (api_graph_run quote new_graph_store
              (GraphStore_save new_graph_store
                 (mkGraphObject "id-1"
                    (build "g"
                       [AddNode "a" (api_node_func "a") "";
                        AddNode "b" (api_node_func "b") "";
                        AddEdge "a" "b" None ""; SetEntryPoint "a"])))
              "id-1"
              (mkGraphCreateRequest "g" "a"
                 [mkNodeInput "a" ""; mkNodeInput "b" ""]
                 [mkEdgeInput "a" "b" ""])
              (mkGraphObject "id-1"
                 (build "g"
                    [AddNode "a" (api_node_func "a") "";
                     AddNode "b" (api_node_func "b") "";
                     AddEdge "a" "b" None ""; SetEntryPoint "a"]))
              new_run_store empty_world "run-1" ∅)
    as (rs' & w' & res & Hrun & _); [reflexivity |].
  exists rs', w', res. exact Hrun.
Defined.

(** [profile_data] returns exactly when the data is absent or a
    dictionary, and [iteration] is absent or a number.  It then leaves
    every object of the heap as it was and puts the profile in a new one:
    [record_count] and [field_count] are the number of records,
    [null_count] counts the records that are [None] and is at most
    [record_count], and the [iteration] returned is the old one (0 when
    absent) plus one. *)
Theorem profile_data_spec (h : heap) (st : dict) :
  (is_Some (profile_data h st) ↔
   is_Some (data_items h st) ∧ is_Some (next_iteration st)) ∧
  (∀ h' res, profile_data h st = Some (h', res) →
     ∃ l data i records nulls,
       data_items h st = Some data ∧
       next_iteration st = Some i ∧
       h !! l = None ∧
       (∀ l', l' ≠ l → h' !! l' = h !! l') ∧
       res = RDict {["profile" := VRef l; "iteration" := VInt i]} ∧
       h' !! l =
         Some (ODict {["record_count" := VInt records;
                       "null_count" := VInt nulls;
                       "field_count" := VInt records;
                       "profile_complete" := VBool true]}) ∧
       records = Z.of_nat (size data) ∧
       0 ≤ nulls ≤ records ∧
       (nulls = records ↔ ∀ k v, data !! k = Some v → v = VNone) ∧
       merge_result st res !! "iteration" = Some (VInt i)) ∧
  (st !! "data" = None → st !! "iteration" = None →
   ∃ l, profile_data h st =
          Some (<[l := ODict {["record_count" := VInt 0;
                               "null_count" := VInt 0;
                               "field_count" := VInt 0;
                               "profile_complete" := VBool true]}]> h,
                RDict {["profile" := VRef l; "iteration" := VInt 1]})).
Proof.
  unfold profile_data. split.
  { destruct (data_items h st) as [data|]; simpl.
    - destruct (next_iteration st) as [i|]; simpl.
      + split; eauto.
      + split; [by intros [? ?] | by intros [_ [? ?]]].
    - split; [by intros [? ?] | by intros [[? ?] _]]. }
  split.
  { intros h' res.
    destruct (data_items h st) as [data|]; [| done].
    destruct (next_iteration st) as [i|]; [| done].
    intros [= <- <-].
    set (nulls := filter (λ kv : string * value, is_none kv.2 = true) data).
    exists (fresh (dom h)), data, i, (Z.of_nat (size data)),
      (Z.of_nat (size nulls)).
    assert (nulls ⊆ data) as Hsub by apply map_filter_subseteq.
    pose proof (map_subseteq_size _ _ Hsub) as Hsize.
    split; [done |]. split; [done |].
    split; [apply not_elem_of_dom_1, is_fresh |].
    split; [intros l' Hne; by rewrite lookup_insert_ne |].
    split; [done |]. split; [by rewrite lookup_insert_eq |].
    split; [done |]. split; [lia |].
    split.
    - split.
      + intros Heq k v Hk.
        assert (nulls = data) as Hfull
          by (apply map_subseteq_size_eq; [done | lia]).
        rewrite <- Hfull in Hk. unfold nulls in Hk.
        apply map_lookup_filter_Some in Hk as [_ Hnone]. simpl in Hnone.
        by destruct v.
      + intros Hall. f_equal. f_equal. unfold nulls.
        apply map_eq. intros k. apply option_eq. intros v.
        rewrite map_lookup_filter_Some. simpl. split; [by intros [? _] |].
        intros Hk. split; [done |]. by rewrite (Hall k v Hk).
    - unfold merge_result. simpl.
      rewrite bool_decide_eq_false_2 by (by apply insert_non_empty).
      simpl. apply lookup_union_Some_l. by simplify_map_eq. }
  intros Hdata Hiter. unfold data_items, next_iteration, state_get.
  rewrite Hdata, Hiter. simpl. eexists. done.
Qed.

(** On [branching_graph] the entry node ["a"] returns [{"a": 1}]; its next
    nodes are then ["b"] and ["c"], and the run goes on with ["b"]. *)
Lemma get_next_nodes_declaration_order_witness :
  get_next_nodes branching_graph "a" ∅ {["a" := VInt 1]} = ["b"; "c"] ∧
  ∃ rf first second rest,
    get_current_run
      (execute quote (new_executor branching_graph) empty_world ∅ None).1.1 =
      Some rf ∧
    logs rf = first :: second :: rest ∧
    node_name first = "a" ∧
    log_status first = "success" ∧
    node_name second = "b".
Proof.
  split; [reflexivity |].
  destruct (get_next_nodes_declaration_order quote branching_graph "a" ∅ ∅)
    as (_ & _ & _ & _ & Hexecute).
  apply (Hexecute (new_executor branching_graph) empty_world ∅ None
           (mkNodeDefinition "a" set_a "") ∅ ∅ (RDict {["a" := VInt 1]})
           "b" ["c"] (mkNodeDefinition "b" nop ""));
    [reflexivity | reflexivity | done | done | reflexivity | reflexivity
    | reflexivity | done | reflexivity].
Defined.
